(** * sclib.asyncio: the asynchronous SoundCloud client

    A shallow embedding of [src/sclib/asyncio.py]: credential discovery,
    the resolver, the batch lookup [get_tracks], playlist completion
    [clean_attributes] and the stream reconstruction [write_mp3_to],
    together with the part of the Python runtime these functions rely on
    (exceptions and their classes, JSON values, truthiness, [==],
    subscripting, [bytes.splitlines], a stable [sorted]). *)

From Stdlib Require Import List String Ascii ZArith Bool Arith Lia.
From Stdlib Require Import Permutation Sorted DecimalString.
Import ListNotations.
Set Warnings "-register-all".
Local Open Scope list_scope.
Local Open Scope string_scope.

(** ** Python runtime *)

Module Py.

(** [str] is text, [bytes] a sequence of 8-bit bytes. *)
Definition str := string.
Definition bytes := list ascii.

(** The exception classes that the module and its collaborators raise.
    All of them derive from [Exception]; signals that derive from
    [BaseException] only (keyboard interrupt, task cancellation) are not
    part of the model. *)
Inductive exn_class :=
| Exception
| TypeError
| ValueError
| LookupError
| KeyError
| IndexError
| RuntimeError
| OSError
| UnicodeDecodeError
| JSONDecodeError
| UnsupportedOperation
| ClientError.

Definition exn_class_eqb (a b : exn_class) : bool :=
  match a, b with
  | Exception, Exception | TypeError, TypeError | ValueError, ValueError
  | LookupError, LookupError | KeyError, KeyError | IndexError, IndexError
  | RuntimeError, RuntimeError | OSError, OSError
  | UnicodeDecodeError, UnicodeDecodeError
  | JSONDecodeError, JSONDecodeError
  | UnsupportedOperation, UnsupportedOperation
  | ClientError, ClientError => true
  | _, _ => false
  end.

(** [issubclass c base], following the class hierarchy of CPython, of
    [json], [io] and [aiohttp]. *)
Definition issubclass (c base : exn_class) : bool :=
  exn_class_eqb c base ||
  match base, c with
  | Exception, _ => true
  | ValueError, (UnicodeDecodeError | JSONDecodeError | UnsupportedOperation) => true
  | LookupError, (KeyError | IndexError) => true
  | OSError, UnsupportedOperation => true
  | _, _ => false
  end.

(** What [type(exc)] prints as. *)
Definition class_repr (c : exn_class) : str :=
  "<class '" ++
  match c with
  | Exception => "Exception"
  | TypeError => "TypeError"
  | ValueError => "ValueError"
  | LookupError => "LookupError"
  | KeyError => "KeyError"
  | IndexError => "IndexError"
  | RuntimeError => "RuntimeError"
  | OSError => "OSError"
  | UnicodeDecodeError => "UnicodeDecodeError"
  | JSONDecodeError => "json.decoder.JSONDecodeError"
  | UnsupportedOperation => "io.UnsupportedOperation"
  | ClientError => "aiohttp.client_exceptions.ClientError"
  end ++ "'>".

(** An exception object: its class and [str(exc)]. *)
Record exn := mkExn { e_class : exn_class; e_msg : str }.

Definition isinstance (e : exn) (bases : list exn_class) : bool :=
  existsb (issubclass (e_class e)) bases.

(** The outcome of an expression: a value, or a raised exception. *)
Inductive res (A : Type) :=
| Ok (a : A)
| Raise (e : exn).
Arguments Ok {A} a.
Arguments Raise {A} e.

Definition res_bind {A B} (r : res A) (f : A -> res B) : res B :=
  match r with
  | Ok a => f a
  | Raise e => Raise e
  end.

(** [[f(x) for x in l]] where [f] may raise: the first failure wins. *)
Fixpoint res_map {A B} (f : A -> res B) (l : list A) : res (list B) :=
  match l with
  | [] => Ok []
  | x :: l' =>
      res_bind (f x) (fun y =>
      res_bind (res_map f l') (fun ys => Ok (y :: ys)))
  end.

(** The values [json.loads] produces (integers only among the numbers). *)
Inductive pyval :=
| PNone
| PBool (b : bool)
| PInt (z : Z)
| PStr (s : str)
| PList (l : list pyval)
| PDict (d : list (str * pyval)).

(** Truthiness, as tested by [if x] and [not x]. *)
Definition truthy (v : pyval) : bool :=
  match v with
  | PNone => false
  | PBool b => b
  | PInt z => negb (z =? 0)%Z
  | PStr s => negb (s =? EmptyString)%string
  | PList l => match l with [] => false | _ => true end
  | PDict d => match d with [] => false | _ => true end
  end.

Fixpoint dict_get {V} (k : str) (d : list (str * V)) : option V :=
  match d with
  | [] => None
  | (k', v) :: d' => if (k =? k')%string then Some v else dict_get k d'
  end.

(** [a == b]: booleans compare as the integers 0 and 1, sequences
    element by element, dictionaries as mappings. *)
Fixpoint py_eqb (a b : pyval) {struct a} : bool :=
  match a, b with
  | PNone, PNone => true
  | PBool x, PBool y => Bool.eqb x y
  | PBool x, PInt y => (Z.b2z x =? y)%Z
  | PInt x, PBool y => (x =? Z.b2z y)%Z
  | PInt x, PInt y => (x =? y)%Z
  | PStr x, PStr y => (x =? y)%string
  | PList xs, PList ys =>
      (fix list_eqb (xs ys : list pyval) {struct xs} : bool :=
         match xs, ys with
         | [], [] => true
         | x :: xs', y :: ys' => py_eqb x y && list_eqb xs' ys'
         | _, _ => false
         end) xs ys
  | PDict d1, PDict d2 =>
      (List.length d1 =? List.length d2)%nat &&
      (fix items_in (d : list (str * pyval)) {struct d} : bool :=
         match d with
         | [] => true
         | (k, v) :: d' =>
             match dict_get k d2 with
             | Some v' => py_eqb v v' && items_in d'
             | None => false
             end
         end) d1
  | _, _ => false
  end.

Definition type_name (v : pyval) : str :=
  match v with
  | PNone => "NoneType"
  | PBool _ => "bool"
  | PInt _ => "int"
  | PStr _ => "str"
  | PList _ => "list"
  | PDict _ => "dict"
  end.

(** [v[k]] for a string key [k]. *)
Definition getitem_str (v : pyval) (k : str) : res pyval :=
  match v with
  | PDict d =>
      match dict_get k d with
      | Some x => Ok x
      | None => Raise (mkExn KeyError ("'" ++ k ++ "'"))
      end
  | PList _ =>
      Raise (mkExn TypeError "list indices must be integers or slices, not str")
  | PStr _ =>
      Raise (mkExn TypeError "string indices must be integers, not 'str'")
  | _ =>
      Raise (mkExn TypeError ("'" ++ type_name v ++ "' object is not subscriptable"))
  end.

(** [v[0]]. A dictionary decoded from JSON has string keys only, so the
    key [0] is never found. *)
Definition getitem_0 (v : pyval) : res pyval :=
  match v with
  | PList (x :: _) => Ok x
  | PList [] => Raise (mkExn IndexError "list index out of range")
  | PStr (String c _) => Ok (PStr (String c EmptyString))
  | PStr EmptyString => Raise (mkExn IndexError "string index out of range")
  | PDict _ => Raise (mkExn KeyError "0")
  | _ =>
      Raise (mkExn TypeError ("'" ++ type_name v ++ "' object is not subscriptable"))
  end.

(** Iteration, as [itertools.chain.from_iterable] does over each element:
    a list yields its elements, a dictionary its keys, a string its
    characters. *)
Fixpoint chars (s : str) : list pyval :=
  match s with
  | EmptyString => []
  | String c s' => PStr (String c EmptyString) :: chars s'
  end.

Definition iterate (v : pyval) : res (list pyval) :=
  match v with
  | PList l => Ok l
  | PDict d => Ok (map (fun kv => PStr (fst kv)) d)
  | PStr s => Ok (chars s)
  | _ => Raise (mkExn TypeError ("'" ++ type_name v ++ "' object is not iterable"))
  end.

Fixpoint is_prefix (p s : str) : bool :=
  match p, s with
  | EmptyString, _ => true
  | String a p', String b s' => (a =? b)%char && is_prefix p' s'
  | _, EmptyString => false
  end.

Fixpoint is_substring (p s : str) : bool :=
  is_prefix p s ||
  match s with
  | EmptyString => false
  | String _ s' => is_substring p s'
  end.

(** [k in v] for a string [k]. *)
Definition contains_str (k : str) (v : pyval) : res bool :=
  match v with
  | PDict d => Ok (match dict_get k d with Some _ => true | None => false end)
  | PList l => Ok (existsb (py_eqb (PStr k)) l)
  | PStr s => Ok (is_substring k s)
  | _ =>
      Raise (mkExn TypeError ("argument of type '" ++ type_name v ++ "' is not iterable"))
  end.

(** [l.index(v)]: the position of the first element equal to [v]. *)
Fixpoint index (l : list pyval) (v : pyval) : res nat :=
  match l with
  | [] => Raise (mkExn ValueError "tuple.index(x): x not in tuple")
  | x :: l' =>
      if py_eqb x v then Ok 0
      else res_bind (index l' v) (fun i => Ok (S i))
  end.

(** [sorted(l, key=...)] once the keys are known: a stable sort, so
    elements with equal keys keep their relative order. *)
Fixpoint insert_by_key {A} (x : nat * A) (l : list (nat * A)) : list (nat * A) :=
  match l with
  | [] => [x]
  | y :: l' =>
      if (fst x <=? fst y)%nat then x :: y :: l' else y :: insert_by_key x l'
  end.

Fixpoint sort_by_key {A} (l : list (nat * A)) : list (nat * A) :=
  match l with
  | [] => []
  | x :: l' => insert_by_key x (sort_by_key l')
  end.

(** The order of the keys. *)
Definition key_le {A} (x y : nat * A) : Prop := fst x <= fst y.

(** [sorted(l, key=key)]: all keys are computed first, in list order. *)
Definition sorted {A} (key : A -> res nat) (l : list A) : res (list A) :=
  res_bind (res_map (fun x => res_bind (key x) (fun k => Ok (k, x))) l)
    (fun kl => Ok (map snd (sort_by_key kl))).

(** [b.splitlines()] on bytes: lines end at LF, CR or CR LF, the line
    ends are dropped, and no empty last line is produced. *)
Definition LF : ascii := ascii_of_nat 10.
Definition CR : ascii := ascii_of_nat 13.

Fixpoint splitlines_from (cur : bytes) (b : bytes) : list bytes :=
  match b with
  | [] => match cur with [] => [] | _ => [rev cur] end
  | c :: b' =>
      if (c =? LF)%char then rev cur :: splitlines_from [] b'
      else if (c =? CR)%char then
        match b' with
        | c' :: b'' =>
            if (c' =? LF)%char then rev cur :: splitlines_from [] b''
            else rev cur :: splitlines_from [] b'
        | [] => [rev cur]
        end
      else splitlines_from (c :: cur) b'
  end.

Definition splitlines (b : bytes) : list bytes := splitlines_from [] b.

(** [b.startswith(p)] for a one-byte prefix. *)
Definition startswith (c : ascii) (b : bytes) : bool :=
  match b with
  | c' :: _ => (c' =? c)%char
  | [] => false
  end.

(** A list without its repetitions: each element at its first occurrence. *)
Fixpoint first_occurrences {A} (eqb : A -> A -> bool) (l : list A) : list A :=
  match l with
  | [] => []
  | x :: l' => x :: filter (fun y => negb (eqb y x)) (first_occurrences eqb l')
  end.

(** [s.split(sep)[-1]]: what follows the last separator. *)
Fixpoint last_segment (sep : ascii) (s : str) : str :=
  match s with
  | EmptyString => EmptyString
  | String c s' =>
      if existsb (Ascii.eqb sep) (list_ascii_of_string s') then last_segment sep s'
      else if (c =? sep)%char then s' else s
  end.

End Py.

(** ** The module [sclib.asyncio] *)

Module Sc.
Import Py.

(** What the program does to the outside, in the order it does it. *)
Inductive event :=
| Request (url : str)
| Stderr (line : str)
| FileSeek (pos : nat)
| FileWrite (data : bytes).

(** The session: the [SoundcloudAPI] object's [client_id] attribute and
    the events so far. Tracks and playlists refer to that object through
    their [client] attribute. *)
Inductive client := Api.

Record World := mkWorld {
  trace : list event;
  client_id : option str
}.

Definition emit (evs : list event) (w : World) : World :=
  mkWorld (trace w ++ evs)%list (client_id w).

(** Modelled from the spec: the constructor of [sync.Track], which is not
    part of [asyncio.py]. An item keeps the fields of the remote
    representation as they are, together with its client. *)
Record Track := mkTrack {
  t_obj : pyval;
  t_client : option client
}.

(** Modelled from the spec: the attribute [artwork_url] of [sync.Track],
    the optional artwork reference copied from the remote representation. *)
Definition artwork_url (self : Track) : pyval :=
  match t_obj self with
  | PDict d => match dict_get "artwork_url" d with Some v => v | None => PNone end
  | _ => PNone
  end.

(** An entry of a playlist's [tracks] list: a decoded JSON value, or a
    [Track] object. *)
Inductive entry :=
| Raw (obj : pyval)
| Obj (t : Track).

Record Playlist := mkPlaylist {
  ready : bool;
  tracks : list entry;
  p_client : option client
}.

(** The file object handed to [write_mp3_to]: opened for reading and
    writing bytes (["wb+"], what the function asks for), opened for text,
    opened for reading bytes only, or opened for reading and writing
    bytes and closed since. *)
Inductive file_mode := BinaryReadWrite | TextMode | ReadOnly | Closed.

Record file_obj := mkFile {
  f_mode : file_mode;
  f_data : bytes;
  f_pos : nat
}.

(** What [resolve] returns, when it returns an object. *)
Inductive sc_object :=
| ATrack (t : Track)
| APlaylist (p : Playlist).

(** The collaborators of the module: the libraries it imports and the
    modules [util] and [sync] of the package, none of which is part of
    [asyncio.py]. The remote service answers a URL in the same way each
    time it is asked during a session. *)
Class Env := {
  (* aiohttp: the body of the response to a GET request *)
  http_get : str -> res bytes;
  (* asyncio: the order in which [n] tasks started together complete *)
  completion : nat -> list nat;
  (* builtins, random, json, bs4 *)
  decode : bytes -> res str;
  random_choice : list str -> res str;
  json_loads : bytes -> res pyval;
  meta_content : str -> res str;
  (* sclib.util *)
  SCRAPE_URLS : list str;
  find_script_urls : str -> list str;
  find_client_id : str -> option str;
  get_large_artwork_url : pyval -> res str;
  (* sclib.sync *)
  format_get_tracks_urls : option str -> list pyval -> list str;
  get_prog_url : Track -> option str -> res str;
  write_track_id3 : Track -> file_obj -> option bytes -> res unit * file_obj;
  track_eqb : Track -> Track -> bool;
  Playlist_init : pyval -> option client -> res Playlist
}.

(** A state and exception monad: an exception keeps the state reached
    when it was raised. *)
Definition M (S A : Type) : Type := S -> res A * S.

Definition ret {S A} (a : A) : M S A := fun s => (Ok a, s).

Definition bind {S A B} (m : M S A) (f : A -> M S B) : M S B :=
  fun s =>
    match m s with
    | (Ok a, s') => f a s'
    | (Raise e, s') => (Raise e, s')
    end.

Definition raise {S A} (c : exn_class) (msg : str) : M S A :=
  fun s => (Raise (mkExn c msg), s).

Definition lift {S A} (r : res A) : M S A := fun s => (r, s).

(** [try: m  except classes as exc: handler exc] *)
Definition try_except {S A} (m : M S A) (classes : list exn_class)
    (handler : exn -> M S A) : M S A :=
  fun s =>
    match m s with
    | (Ok a, s') => (Ok a, s')
    | (Raise e, s') =>
        if isinstance e classes then handler e s' else (Raise e, s')
    end.

(** A computation on the session, run where a file object is at hand. *)
Definition on_world {T A} (m : M World A) : M (T * World) A :=
  fun s =>
    match m (snd s) with
    | (r, w') => (r, (fst s, w'))
    end.

Declare Scope py_scope.
Delimit Scope py_scope with py.
Notation "x <- m ;; k" := (bind m (fun x => k))
  (at level 100, m at next level, right associativity) : py_scope.
Notation "m ;; k" := (bind m (fun _ => k))
  (at level 100, right associativity) : py_scope.
Local Open Scope py_scope.

Fixpoint for_each {S A} (l : list A) (body : A -> M S unit) : M S unit :=
  match l with
  | [] => ret tt
  | x :: l' => body x ;; for_each l' body
  end.

Definition log (ev : event) : M World unit :=
  fun w => (Ok tt, emit [ev] w).

(** [eprint] of several values: the values on one line of stderr. *)
Definition eprint (values : list str) : M World unit :=
  log (Stderr (String.concat " " values)).

(** A coroutine that awaits one network fetch: the URL it requests as
    soon as it starts, and what it does with the outcome, namely its
    result and the events it causes. *)
Record fetch_task (A : Type) := mkTask {
  ft_url : str;
  ft_then : res bytes -> res A * list event
}.
Arguments mkTask {A} _ _.
Arguments ft_url {A} _.
Arguments ft_then {A} _.

Section Program.
Context {env : Env}.

Definition settled {A} (t : fetch_task A) : res A * list event :=
  ft_then t (http_get (ft_url t)).

(** [await task] *)
Definition await {A} (t : fetch_task A) : M World A :=
  fun w => (fst (settled t), emit (Request (ft_url t) :: snd (settled t)) w).

(** The completion order of [n] tasks: the indices below [n] in the order
    the event loop gives, then whatever it left out. *)
Definition completion_order (n : nat) : list nat :=
  let given :=
    first_occurrences Nat.eqb (filter (fun i => (i <? n)%nat) (completion n)) in
  (given ++ filter (fun i => negb (existsb (Nat.eqb i) given)) (seq 0 n))%list.

(** The tasks settle in completion order; the first one that raises ends
    the wait with its exception. *)
Fixpoint settle {A} (order : list nat) (outs : list (res A * list event))
    (w : World) : res unit * World :=
  match order with
  | [] => (Ok tt, w)
  | i :: order' =>
      match nth_error outs i with
      | None => settle order' outs w
      | Some (Ok _, evs) => settle order' outs (emit evs w)
      | Some (Raise e, evs) => (Raise e, emit evs w)
      end
  end.

(** [await asyncio.gather] over the tasks: every task starts, in list
    order; the results come in list order whatever the completion order
    is; without [return_exceptions], the first exception raised is
    propagated, and the tasks still running are left to themselves. *)
Definition gather {A} (tasks : list (fetch_task A)) : M World (list A) :=
  fun w =>
    let started := emit (map (fun t => Request (ft_url t)) tasks) w in
    let outs := map settled tasks in
    match settle (completion_order (List.length tasks)) outs started with
    | (Raise e, w') => (Raise e, w')
    | (Ok _, w') => (res_map fst outs, w')
    end.

Definition get_resource_task (url : str) : fetch_task bytes :=
  mkTask url (fun out => (out, [])).

Definition get_resource (url : str) : M World bytes :=
  await (get_resource_task url).

Definition fetch_soundcloud_client_id : M World (option str) :=
  url <- lift (random_choice SCRAPE_URLS) ;;
  page_text <- get_resource url ;;
  page <- lift (decode page_text) ;;
  let script_urls := find_script_urls page in
  results <- gather (map get_resource_task script_urls) ;;
  texts <- lift (res_map decode results) ;;
  let script_text := String.concat EmptyString texts in
  ret (find_client_id script_text).

Definition get_obj_from_task (url : str) : fetch_task pyval :=
  mkTask url (fun out =>
    match res_bind out json_loads with
    | Ok obj => (Ok obj, [])
    | Raise exc =>
        (Ok (PBool false),
         [Stderr (String.concat " " [class_repr (e_class exc); e_msg exc])])
    end).

Definition get_obj_from (url : str) : M World pyval :=
  await (get_obj_from_task url).

(** *** class SoundcloudAPI *)

Definition set_client_id (v : option str) : M World unit :=
  fun w => (Ok tt, mkWorld (trace w) v).

Definition get_client_id : M World (option str) :=
  fun w => (Ok (client_id w), w).

(** [not self.client_id]: the attribute is [None] or an empty string. *)
Definition no_client_id (v : option str) : bool :=
  match v with
  | None => true
  | Some s => (s =? EmptyString)%string
  end.

Definition get_credentials : M World unit :=
  found <- fetch_soundcloud_client_id ;;
  set_client_id found ;;
  match found with
  | None =>
      raise RuntimeError
        ("ScLib could not automatically find a public client id. " ++
         "This means Soundcloud has changed where the public client id is located. " ++
         "Please report this to the package author.")
  | Some _ => ret tt
  end.

(** [if not self.client_id: await self.get_credentials()], the first
    statement of [resolve] and of [get_tracks]. *)
Definition ensure_credentials : M World unit :=
  held <- get_client_id ;;
  if no_client_id held then get_credentials else ret tt.

(** The page is fetched and read as text, the content of the [meta] tag
    is found by the parser, and its part after the last colon is the id. *)
Definition get_track_id (url : str) : M World str :=
  log (Request url) ;;
  body <- lift (http_get url) ;;
  content <- lift (decode body) ;;
  tag_content <- lift (meta_content content) ;;
  ret (last_segment ":" tag_content).

(** [str(x)] of an attribute that holds a string or [None]. *)
Definition format_opt (v : option str) : str :=
  match v with
  | Some s => s
  | None => "None"
  end.

Definition get_tracks (track_ids : list pyval) : M World (list pyval) :=
  ensure_credentials ;;
  cid <- get_client_id ;;
  let tasks := map get_obj_from_task (format_get_tracks_urls cid track_ids) in
  response <- gather tasks ;;
  chained <- lift (res_map iterate response) ;;
  let tracks := List.concat chained in
  lift (sorted (fun x => res_bind (getitem_str x "id") (index track_ids)) tracks).

(** *** class Track *)

Definition get_stream_url (self : Track) : M World pyval :=
  cid <- get_client_id ;;
  prog_url <- lift (get_prog_url self cid) ;;
  stream_response <- get_obj_from prog_url ;;
  try_except
    (if negb (truthy stream_response)
     then raise ValueError "Stream response is empty"
     else lift (getitem_str stream_response "url"))
    [Exception]
    (fun exc => eprint [e_msg exc] ;; ret PNone).

(** [get_resource(v)] where [v] is whatever [get_stream_url] returned:
    aiohttp rejects a URL that is not a string with a [TypeError]. *)
Definition get_resource_at (v : pyval) : M World bytes :=
  match v with
  | PStr url => get_resource url
  | _ => raise TypeError "Constructor parameter should be str"
  end.

Definition NUL : ascii := ascii_of_nat 0.

(** [file.seek(pos)] *)
Definition file_seek (pos : nat) : M (file_obj * World) unit :=
  fun s =>
    let (file, w) := s in
    match f_mode file with
    | Closed => (Raise (mkExn ValueError "seek of closed file"), s)
    | _ => (Ok tt, (mkFile (f_mode file) (f_data file) pos, emit [FileSeek pos] w))
    end.

(** [file.write(data)] with [data] of type bytes: the data replace what
    is at the position and extend the file where they go past its end. *)
Definition file_write (data : bytes) : M (file_obj * World) unit :=
  fun s =>
    let (file, w) := s in
    match f_mode file with
    | Closed => (Raise (mkExn ValueError "write to closed file"), s)
    | TextMode => (Raise (mkExn TypeError "write() argument must be str, not bytes"), s)
    | ReadOnly => (Raise (mkExn UnsupportedOperation "write"), s)
    | BinaryReadWrite =>
        let old := f_data file in
        let pos := f_pos file in
        let n := List.length data in
        let written :=
          (firstn pos old ++ repeat NUL (pos - List.length old) ++ data
           ++ skipn (pos + n) old)%list in
        (Ok tt, (mkFile BinaryReadWrite written (pos + n), emit [FileWrite data] w))
    end.

(** The lines of the manifest that do not start with [#], decoded. *)
Definition HASH : ascii := "#"%char.

Fixpoint segment_urls (track_bytes_split : list bytes) : res (list str) :=
  match track_bytes_split with
  | [] => Ok []
  | chunk :: rest =>
      if negb (startswith HASH chunk)
      then res_bind (decode chunk) (fun url =>
           res_bind (segment_urls rest) (fun chunks => Ok (url :: chunks)))
      else segment_urls rest
  end.

(** The diagnostic of [write_mp3_to]; the function name and the mode are
    in double quotes. *)
Definition DQUOTE : str := String (ascii_of_nat 34) EmptyString.

Definition WRONG_MODE : str :=
  "File object passed to " ++ DQUOTE ++ "write_mp3_to" ++ DQUOTE ++
  " must be opened in read/write binary (" ++ DQUOTE ++ "wb+" ++ DQUOTE ++ ") mode".

(** [write_mp3_to], the body of the [try] up to the second [seek]: the
    manifest is fetched, then each segment in turn is fetched and written. *)
Definition write_segments (self : Track) : M (file_obj * World) unit :=
  file_seek 0 ;;
  stream_url <- on_world (get_stream_url self) ;;
  track_bytes <- on_world (get_resource_at stream_url) ;;
  let track_bytes_split := splitlines track_bytes in
  chunks <- lift (segment_urls track_bytes_split) ;;
  for_each chunks (fun chunk =>
    data <- on_world (get_resource chunk) ;;
    file_write data) ;;
  file_seek 0.

(** [write_mp3_to], the rest of the body of the [try]: the artwork, if
    the track has one, and the tags. *)
Definition write_artwork (self : Track) : M (file_obj * World) unit :=
  album_artwork <-
    (if truthy (artwork_url self)
     then url <- lift (get_large_artwork_url (artwork_url self)) ;;
          art <- on_world (get_resource url) ;;
          ret (Some art)
     else ret None) ;;
  (fun s => let (r, file') := write_track_id3 self (fst s) album_artwork in
            (r, (file', snd s))).

(** [write_mp3_to], the handler of [TypeError] and [ValueError]. *)
Definition report_wrong_mode (exc : exn) : M (file_obj * World) unit :=
  on_world (eprint [WRONG_MODE]) ;;
  on_world (eprint [e_msg exc]) ;;
  lift (Raise exc).

Definition write_mp3_to (self : Track) : M (file_obj * World) unit :=
  try_except
    (write_segments self ;; write_artwork self)
    [TypeError; ValueError]
    report_wrong_mode.

(** *** class Playlist *)

Definition RESOLVE_THRESHOLD : nat := 100.

(** How a loop ends: by running out, or by a [return] in its body. *)
Inductive flow := Fallthrough | Returned.

(** [entry['id']]. A [Track] object is neither a container nor
    subscriptable. *)
Definition entry_getitem (e : entry) (k : str) : res pyval :=
  match e with
  | Raw obj => getitem_str obj k
  | Obj _ => Raise (mkExn TypeError "'Track' object is not subscriptable")
  end.

(** The first loop: the completed entries at the front of [self.tracks]
    are popped and turned into track objects. Returns what is left of
    [self.tracks] and the track objects built so far. *)
Fixpoint pop_completed (c : option client) (self_tracks : list entry)
    (track_objects : list Track) : res unit * list entry * list Track :=
  match self_tracks with
  | [] => (Ok tt, [], track_objects)
  | e :: rest =>
      match e with
      | Obj _ =>
          (Raise (mkExn TypeError "argument of type 'Track' is not iterable"),
           self_tracks, track_objects)
      | Raw obj =>
          match contains_str "title" obj with
          | Raise exc => (Raise exc, self_tracks, track_objects)
          | Ok false => (Ok tt, self_tracks, track_objects)
          | Ok true =>
              pop_completed c rest (track_objects ++ [mkTrack obj c])%list
          end
      end
  end.

(** The second loop: every entry is popped and its id collected; a full
    batch, or the last one, is looked up through the client. *)
Fixpoint resolve_incomplete (c : option client) (self_tracks : list entry)
    (incomplete_track_ids : list pyval) (track_objects : list Track)
    (w : World) : res flow * list entry * list Track * World :=
  match self_tracks with
  | [] => (Ok Fallthrough, [], track_objects, w)
  | e :: rest =>
      match entry_getitem e "id" with
      | Raise exc => (Raise exc, rest, track_objects, w)
      | Ok id =>
          let ids := (incomplete_track_ids ++ [id])%list in
          if (List.length ids =? RESOLVE_THRESHOLD)%nat
             || match rest with [] => true | _ => false end
          then
            match c with
            | None => (Ok Returned, rest, track_objects, w)
            | Some _ =>
                match get_tracks ids w with
                | (Raise exc, w') => (Raise exc, rest, track_objects, w')
                | (Ok new_tracks, w') =>
                    resolve_incomplete c rest []
                      (track_objects ++ map (fun t => mkTrack t c) new_tracks)%list
                      w'
                end
            end
          else resolve_incomplete c rest ids track_objects w
      end
  end.

(** [track in self.tracks]; a track object is never equal to a decoded
    JSON value. *)
Definition track_in (track : Track) (self_tracks : list entry) : bool :=
  existsb (fun e => match e with
                    | Raw _ => false
                    | Obj t => track_eqb t track
                    end) self_tracks.

(** The last loop: each track object not yet in [self.tracks] is
    appended to it. *)
Fixpoint append_missing (track_objects : list Track) (self_tracks : list entry)
    : list entry :=
  match track_objects with
  | [] => self_tracks
  | track :: rest =>
      if negb (track_in track self_tracks)
      then append_missing rest (self_tracks ++ [Obj track])%list
      else append_missing rest self_tracks
  end.

(** The playlist object is mutated in place: whatever the outcome, the
    caller finds it in the state the call left it in. *)
Definition clean_attributes (self : Playlist) (w : World)
    : res unit * Playlist * World :=
  if ready self then (Ok tt, self, w)
  else
    let c := p_client self in
    match pop_completed c (tracks self) [] with
    | (Raise exc, remaining, _) => (Raise exc, mkPlaylist true remaining c, w)
    | (Ok _, remaining, track_objects) =>
        match resolve_incomplete c remaining [] track_objects w with
        | (Raise exc, remaining', _, w') => (Raise exc, mkPlaylist true remaining' c, w')
        | (Ok Returned, remaining', _, w') => (Ok tt, mkPlaylist true remaining' c, w')
        | (Ok Fallthrough, remaining', track_objects', w') =>
            (Ok tt, mkPlaylist true (append_missing track_objects' remaining') c, w')
        end
    end.

(** *** SoundcloudAPI.resolve *)

(** [resolve] up to and including the lookup of the object: credentials
    if none are held, the track id, and the request. *)
Definition resolve_lookup (url : str) : M World pyval :=
  ensure_credentials ;;
  track_id <- get_track_id url ;;
  cid <- get_client_id ;;
  let full_url :=
    "https://api-v2.soundcloud.com/tracks?ids=" ++ track_id ++
    "&client_id=" ++ format_opt cid in
  get_obj_from full_url.

(** [resolve] from [if not obj] on. The function ends after the second
    [if]: any other kind makes it return [None]. *)
Definition resolve_dispatch (obj : pyval) : M World (option sc_object) :=
  if negb (truthy obj) then raise ValueError "Could not resolve url"
  else
    obj <- lift (getitem_0 obj) ;;
    kind <- lift (getitem_str obj "kind") ;;
    if py_eqb kind (PStr "track") then ret (Some (ATrack (mkTrack obj (Some Api))))
    else
      kind <- lift (getitem_str obj "kind") ;;
      if existsb (py_eqb kind) [PStr "playlist"; PStr "system-playlist"]
      then
        playlist <- lift (Playlist_init obj (Some Api)) ;;
        (fun w =>
           match clean_attributes playlist w with
           | (Ok _, playlist', w') => (Ok (Some (APlaylist playlist')), w')
           | (Raise exc, _, w') => (Raise exc, w')
           end)
      else ret None.

Definition resolve (url : str) : M World (option sc_object) :=
  obj <- resolve_lookup url ;;
  resolve_dispatch obj.

End Program.

(** *** Shapes of data that the statements below talk about *)

(** An entry that is a record with an [id] field. *)
Definition has_id (e : entry) : bool :=
  match e with
  | Raw (PDict d) => match dict_get "id" d with Some _ => true | None => false end
  | _ => false
  end.

(** An entry that is a record with a [title] field: a materialised one. *)
Definition has_title (e : entry) : bool :=
  match e with
  | Raw (PDict d) => match dict_get "title" d with Some _ => true | None => false end
  | _ => false
  end.

(** An entry that is not materialised: a record with an [id] field and
    without a [title] field. *)
Definition id_only (e : entry) : bool := has_id e && negb (has_title e).

(** The integer id of an item record, if it has one. *)
Definition int_id (x : pyval) : option Z :=
  match getitem_str x "id" with
  | Ok (PInt z) => Some z
  | _ => None
  end.

(** The id of an item record that has an integer id. *)
Definition id_of (x : pyval) : Z :=
  match int_id x with
  | Some z => z
  | None => 0%Z
  end.

(** The position of the first occurrence of [z] in [zs]. *)
Fixpoint position (z : Z) (zs : list Z) : nat :=
  match zs with
  | [] => 0
  | x :: zs' => if (x =? z)%Z then 0 else S (position z zs')
  end.

(** The response to a request, decoded: what a successful lookup of
    [url] yields. *)
Definition json_response {env : Env} (url : str) : res pyval :=
  res_bind (http_get url) json_loads.

(** What [get_obj_from] returns for [url]: the decoded response, or
    [False] when the request or the decoding fails. *)
Definition lookup_value {env : Env} (url : str) : pyval :=
  match json_response url with
  | Ok obj => obj
  | Raise _ => PBool false
  end.

(** The sink events among some events. *)
Definition is_file_event (ev : event) : bool :=
  match ev with
  | FileSeek _ | FileWrite _ => true
  | _ => false
  end.

Definition file_events (evs : list event) : list event :=
  filter is_file_event evs.

(** Each segment requested, then written, one segment after the other. *)
Fixpoint fetched_and_written (urls : list str) (segments : list bytes)
    : list event :=
  match urls, segments with
  | url :: urls', data :: segments' =>
      Request url :: FileWrite data :: fetched_and_written urls' segments'
  | _, _ => []
  end.

(** The lines of a manifest that do not start with the comment marker. *)
Definition segment_lines (manifest : bytes) : list bytes :=
  filter (fun line => negb (startswith HASH line)) (splitlines manifest).

(** *** Playlist.__aiter__ *)

Section Iteration.
Context {env : Env}.

(** [async for track in playlist]: the playlist is completed, then the
    entries of [self.tracks] are yielded in order. *)
Definition __aiter__ (self : Playlist) (w : World)
    : res (list entry) * Playlist * World :=
  match clean_attributes self w with
  | (Ok _, self', w') => (Ok (tracks self'), self', w')
  | (Raise exc, self', w') => (Raise exc, self', w')
  end.

End Iteration.

(** *** More shapes of data *)

(** An entry that is a track object. *)
Definition is_obj (e : entry) : bool :=
  match e with
  | Obj _ => true
  | Raw _ => false
  end.

(** Two entries of which the second, a track object, is not equal to the
    first. *)
Definition not_repeated {env : Env} (e1 e2 : entry) : Prop :=
  match e1, e2 with
  | Obj t1, Obj t2 => track_eqb t1 t2 = false
  | _, _ => True
  end.

(** The same collaborators with another completion order of the tasks. *)
Definition with_completion (env : Env) (order : nat -> list nat) : Env := {|
  http_get := http_get;
  completion := order;
  decode := decode;
  random_choice := random_choice;
  json_loads := json_loads;
  meta_content := meta_content;
  SCRAPE_URLS := SCRAPE_URLS;
  find_script_urls := find_script_urls;
  find_client_id := find_client_id;
  get_large_artwork_url := get_large_artwork_url;
  format_get_tracks_urls := format_get_tracks_urls;
  get_prog_url := get_prog_url;
  write_track_id3 := write_track_id3;
  track_eqb := track_eqb;
  Playlist_init := Playlist_init
|}.

(** A manifest written as lines, each ended by a line feed; a line
    without line ends in it. *)
Definition join_lines (lines : list bytes) : bytes :=
  List.concat (map (fun line => line ++ [LF])%list lines).

Definition no_line_end (line : bytes) : bool :=
  forallb (fun c => negb (c =? LF)%char && negb (c =? CR)%char) line.

(** A string without a colon. *)
Definition no_colon (s : str) : bool :=
  negb (existsb (Ascii.eqb ":") (list_ascii_of_string s)).

(** The URL that [resolve] looks up for a track id. *)
Definition lookup_url (track_id : str) (cid : option str) : str :=
  "https://api-v2.soundcloud.com/tracks?ids=" ++ track_id ++
  "&client_id=" ++ format_opt cid.

End Sc.

(** ** Concrete sessions

    A remote service given by a table from URLs to bodies, a JSON
    decoder given by a table from bodies to values, and simple stand-ins
    for the other collaborators. *)

Module Demo.
Import Py Sc.

Definition b (s : str) : bytes := list_ascii_of_string s.

(** Decoding accepts 7-bit text. *)
Definition decode_ascii (data : bytes) : res str :=
  if forallb (fun c => (nat_of_ascii c <? 128)%nat) data
  then Ok (string_of_list_ascii data)
  else Raise (mkExn UnicodeDecodeError "'utf-8' codec can't decode byte")%string.

Definition serve (site : list (str * str)) (url : str) : res bytes :=
  match dict_get url site with
  | Some body => Ok (b body)
  | None => Raise (mkExn ClientError "Cannot connect to host")
  end.

Definition parse (table : list (str * pyval)) (data : bytes) : res pyval :=
  match dict_get (string_of_list_ascii data) table with
  | Some v => Ok v
  | None => Raise (mkExn JSONDecodeError "Expecting value: line 1 column 1 (char 0)")
  end.

Definition choose (l : list str) : res str :=
  match l with
  | x :: _ => Ok x
  | [] => Raise (mkExn IndexError "Cannot choose from an empty sequence")
  end.

(** Script URLs are the lines of the page that start with [https:]. *)
Definition script_lines (page : str) : list str :=
  map string_of_list_ascii
    (filter (fun l => is_prefix "https:" (string_of_list_ascii l))
       (splitlines (b page))).

(** The token is [abc123] when the text names it. *)
Definition token (text : str) : option str :=
  if is_substring "client_id:abc123" text then Some "abc123" else None.

Definition id_text (v : pyval) : str :=
  match v with
  | PInt z => NilZero.string_of_int (Z.to_int z)
  | _ => "?"
  end.

(** Chunks of at most [n] ids, one URL per chunk. *)
Fixpoint chunks (fuel n : nat) (l : list pyval) : list (list pyval) :=
  match fuel, l with
  | _, [] => []
  | 0, _ => [l]
  | S fuel', _ => firstn n l :: chunks fuel' n (skipn n l)
  end.

Definition tracks_urls (n : nat) (cid : option str) (ids : list pyval) : list str :=
  map (fun chunk =>
         "https://api-v2.soundcloud.com/tracks?ids=" ++
         String.concat "," (map id_text chunk) ++
         "&client_id=" ++ format_opt cid)
      (chunks (List.length ids) n ids).

Definition large_artwork (v : pyval) : res str :=
  match v with
  | PStr s => Ok (s ++ "-t500x500.jpg")
  | _ => Raise (mkExn TypeError "expected string or bytes-like object")
  end.

Definition prog_url (t : Track) (cid : option str) : res str :=
  match t_obj t with
  | PDict d =>
      match dict_get "id" d with
      | Some v => Ok ("https://api-v2.soundcloud.com/media/" ++ id_text v ++
                      "/stream/progressive?client_id=" ++ format_opt cid)
      | None => Raise (mkExn KeyError "'id'")
      end
  | _ => Raise (mkExn TypeError "object is not subscriptable")
  end.

(** Tagging leaves the file as it is. *)
Definition no_tags (t : Track) (f : file_obj) (art : option bytes)
    : res unit * file_obj := (Ok tt, f).

(** Track objects are equal when they hold equal values. *)
Definition same_track (x y : Track) : bool := py_eqb (t_obj x) (t_obj y).

Definition playlist_of (obj : pyval) (c : option client) : res Playlist :=
  res_bind (getitem_str obj "tracks") (fun v =>
  res_bind (iterate v) (fun l => Ok (mkPlaylist false (map Raw l) c))).

Definition session (n : nat) (site : list (str * str)) (table : list (str * pyval))
    (order : nat -> list nat) : Env := {|
  http_get := serve site;
  completion := order;
  decode := decode_ascii;
  random_choice := choose;
  json_loads := parse table;
  meta_content := fun html => Ok html;
  SCRAPE_URLS := ["https://soundcloud.com/mt-marcy/cold-nights"];
  find_script_urls := script_lines;
  find_client_id := token;
  get_large_artwork_url := large_artwork;
  format_get_tracks_urls := tracks_urls n;
  get_prog_url := prog_url;
  write_track_id3 := no_tags;
  track_eqb := same_track;
  Playlist_init := playlist_of
|}.

Definition in_order (n : nat) : list nat := seq 0 n.
Definition last_first (n : nat) : list nat := rev (seq 0 n).

Definition item (z : Z) (title : str) : pyval :=
  PDict [("id", PInt z); ("kind", PStr "track"); ("title", PStr title)].

Definition stub (z : Z) : pyval := PDict [("id", PInt z)].

(** A session that holds a credential. *)
Definition w0 : World := mkWorld [] (Some "abc123").

(** The catalog answers the lookup of the ids 5 and 3, listing the item 3
    before the item 5. *)
Definition lookup_5_3 : str :=
  "https://api-v2.soundcloud.com/tracks?ids=5,3&client_id=abc123".

Definition catalog : list (str * str) := [(lookup_5_3, "[item 3, item 5]")].

Definition decoded : list (str * pyval) :=
  [("[item 3, item 5]", PList [item 3 "three"; item 5 "five"])].

Definition up : Env := session 100 catalog decoded in_order.

(** Nothing can be reached. *)
Definition down : Env := session 100 [] [] in_order.

(** A playlist of two entries that carry an id only, with and without a
    client. *)
Definition two_stubs : Playlist :=
  mkPlaylist false [Raw (stub 5); Raw (stub 3)] (Some Api).

Definition orphan : Playlist :=
  mkPlaylist false [Raw (stub 5); Raw (stub 3)] None.

Definition two_tracks : Playlist :=
  mkPlaylist true
    [Obj (mkTrack (item 5 "five") (Some Api));
     Obj (mkTrack (item 3 "three") (Some Api))]
    (Some Api).

Definition after_lookup : World := mkWorld [Request lookup_5_3] (Some "abc123").

(** The same catalog, asked for the ids 5, 3 and 5 again. *)
Definition lookup_5_3_5 : str :=
  "https://api-v2.soundcloud.com/tracks?ids=5,3,5&client_id=abc123".

Definition repeats : Env :=
  session 100 [(lookup_5_3_5, "[item 3, item 5]")] decoded last_first.

(** A catalog that answers with one record for each id asked for,
    repeated or not. *)
Definition repeats_all : Env :=
  session 100 [(lookup_5_3_5, "[item 3, item 5, item 5]")]
    [("[item 3, item 5, item 5]",
      PList [item 3 "three"; item 5 "five"; item 5 "five"])]
    last_first.

(** A catalog asked for four ids in chunks of two. *)
Definition pairs_catalog : list (str * str) :=
  [("https://api-v2.soundcloud.com/tracks?ids=5,3&client_id=abc123", "[item 3, item 5]");
   ("https://api-v2.soundcloud.com/tracks?ids=9,1&client_id=abc123", "[item 1, item 9]")].

Definition pairs_decoded : list (str * pyval) :=
  [("[item 3, item 5]", PList [item 3 "three"; item 5 "five"]);
   ("[item 1, item 9]", PList [item 1 "one"; item 9 "nine"])].

Definition pairs : Env := session 2 pairs_catalog pairs_decoded last_first.

(** The stream descriptor of the item 5 is an empty object; that of the
    item 3 has no [url] field. A profile page resolves to a record of
    kind [user]. *)
Definition descriptor (z : str) : str :=
  "https://api-v2.soundcloud.com/media/" ++ z ++
  "/stream/progressive?client_id=abc123".

Definition profile : str := "https://soundcloud.com/someone".

Definition lookup_42 : str :=
  "https://api-v2.soundcloud.com/tracks?ids=42&client_id=abc123".

Definition user_42 : pyval := PDict [("id", PInt 42); ("kind", PStr "user")].

Definition odd_catalog : list (str * str) :=
  [(descriptor "5", "{}");
   (descriptor "3", "{status}");
   (profile, "soundcloud://users:42");
   (lookup_42, "[user 42]")].

Definition odd_decoded : list (str * pyval) :=
  [("{}", PDict []);
   ("{status}", PDict [("status", PStr "gone")]);
   ("[user 42]", PList [user_42])].

Definition odd : Env := session 100 odd_catalog odd_decoded in_order.

(** A session without a credential. The catalog page lists two scripts;
    the first cannot be fetched, the second names the token. *)
Definition fresh : World := mkWorld [] None.

Definition nl : str := String LF EmptyString.

Definition script_0 : str := "https://a-v2.sndcdn.com/assets/0-aaa.js".
Definition script_1 : str := "https://a-v2.sndcdn.com/assets/1-bbb.js".

Definition page : str := "<html>" ++ nl ++ script_0 ++ nl ++ script_1 ++ nl.

Definition half_catalog : list (str * str) :=
  [("https://soundcloud.com/mt-marcy/cold-nights", page);
   (script_1, "var x={client_id:abc123}")].

Definition half : Env := session 100 half_catalog [] last_first.

(** The item 7 has a stream: a manifest of two segments among comment
    lines. The sink holds older, longer content. *)
Definition manifest_url : str := "https://cf-hls-media.sndcdn.com/playlist.m3u8".
Definition segment_0 : str := "https://cf-hls-media.sndcdn.com/media/0/seg.mp3".
Definition segment_1 : str := "https://cf-hls-media.sndcdn.com/media/1/seg.mp3".

Definition manifest : str :=
  "#EXTM3U" ++ nl ++ "#EXTINF:10," ++ nl ++ segment_0 ++ nl ++
  "#EXTINF:4," ++ nl ++ segment_1 ++ nl ++ "#EXT-X-ENDLIST" ++ nl.

Definition radio_catalog : list (str * str) :=
  [(descriptor "7", "{url}");
   (manifest_url, manifest);
   (segment_0, "ID3abc");
   (segment_1, "defgh")].

Definition radio_decoded : list (str * pyval) :=
  [("{url}", PDict [("url", PStr manifest_url)])].

Definition radio : Env := session 100 radio_catalog radio_decoded in_order.

Definition track_7 : Track := mkTrack (item 7 "seven") (Some Api).

Definition old_file : file_obj :=
  mkFile BinaryReadWrite (b "0123456789ABCDEF") 4.

Definition whole_catalog : list (str * str) :=
  (script_0, "var y=0;") :: half_catalog.

Definition whole : Env := session 100 whole_catalog [] last_first.


(** The catalog page lists one script, which names no token. *)
Definition tokenless_page : str := "<html>" ++ nl ++ script_0 ++ nl.

Definition tokenless : Env :=
  session 100
    [("https://soundcloud.com/mt-marcy/cold-nights", tokenless_page);
     (script_0, "var y=0;")]
    [] in_order.

(** The catalog page lists no script at all, and names the token. *)
Definition bare : Env :=
  session 100
    [("https://soundcloud.com/mt-marcy/cold-nights", "<html>client_id:abc123</html>")]
    [] in_order.


(** The catalog answers the lookup of the ids 5 and 3 with the items 3
    and 8. *)
Definition stray : Env :=
  session 100 [(lookup_5_3, "[item 3, item 8]")]
    [("[item 3, item 8]", PList [item 3 "three"; item 8 "eight"])] in_order.


(** Sinks that cannot take the bytes: a closed one, and one opened for
    text. *)
Definition closed_file : file_obj := mkFile Closed (b "0123") 2.
Definition text_file : file_obj := mkFile TextMode (b "0123") 2.

(** The stream of the item 7 when its second segment cannot be fetched. *)
Definition radio_cut : Env :=
  session 100
    [(descriptor "7", "{url}"); (manifest_url, manifest); (segment_0, "ID3abc")]
    radio_decoded in_order.

Definition manifest_lines : list bytes :=
  [b "#EXTM3U"; b "#EXTINF:10,"; b segment_0; b "#EXTINF:4,"; b segment_1;
   b "#EXT-X-ENDLIST"].


(** A catalog with a song and an album of two tracks, the second of which
    is listed by its id only. *)
Definition song : str := "https://soundcloud.com/artist/song".
Definition album : str := "https://soundcloud.com/artist/sets/album".

Definition album_77 : pyval :=
  PDict [("id", PInt 77); ("kind", PStr "playlist");
         ("tracks", PList [item 5 "five"; stub 3])].

Definition library_catalog : list (str * str) :=
  [(song, "soundcloud://sounds:7");
   (album, "soundcloud://playlists:77");
   ("https://api-v2.soundcloud.com/tracks?ids=7&client_id=abc123", "[item 7]");
   ("https://api-v2.soundcloud.com/tracks?ids=77&client_id=abc123", "[album 77]");
   ("https://api-v2.soundcloud.com/tracks?ids=3&client_id=abc123", "[item 3]")].

Definition library_decoded : list (str * pyval) :=
  [("[item 7]", PList [item 7 "seven"]);
   ("[album 77]", PList [album_77]);
   ("[item 3]", PList [item 3 "three"])].

Definition library : Env := session 100 library_catalog library_decoded in_order.

(** The same pages when the catalog's lookup cannot be reached. *)
Definition lost : Env :=
  session 100 [(song, "soundcloud://sounds:7")] [] in_order.


(** A playlist with a client whose two entries are records with a title;
    and one that lists the item 5 twice and the item 3 by its id. *)
Definition titled : Playlist :=
  mkPlaylist false [Raw (item 5 "five"); Raw (item 3 "three")] (Some Api).

Definition twice_five : Playlist :=
  mkPlaylist false [Raw (item 5 "five"); Raw (item 5 "five"); Raw (stub 3)]
    (Some Api).


(** A playlist whose first entry has neither a title nor an id. *)
Definition nameless : Playlist :=
  mkPlaylist false [Raw (PDict [("kind", PStr "track")]); Raw (stub 3)] (Some Api).

(** The catalog answers the lookup with an object that describes an
    error; and a catalog that is asked for nothing. *)
Definition refused : Env :=
  session 100 [(lookup_5_3, "{error}")]
    [("{error}", PDict [("error", PStr "rate limit")])] in_order.

End Demo.

Import Py Sc.
Local Open Scope py_scope.

(** * Playlist completion *)

Section Completion.
Context {env : Env}.

Lemma clean_attributes_ready (self : Playlist) (w : World) :
  ready (snd (fst (clean_attributes self w))) = true.
Proof.
  unfold clean_attributes.
  destruct (ready self) eqn:Hready; [exact Hready|].
  destruct (pop_completed _ _ _) as [[r1 remaining] objs].
  destruct r1 as [u|exc]; [|reflexivity].
  destruct (resolve_incomplete _ _ _ _ _) as [[[r2 remaining'] objs'] w'].
  destruct r2 as [[|]|exc]; reflexivity.
Qed.

Lemma clean_attributes_when_ready (self : Playlist) (w : World) :
  ready self = true -> clean_attributes self w = (Ok tt, self, w).
Proof.
  intros Hready. unfold clean_attributes. now rewrite Hready.
Qed.

Lemma pop_completed_ok (c : option client) (l : list entry) (objs : list Track) :
  forallb has_id l = true ->
  exists remaining objs',
    pop_completed c l objs = (Ok tt, remaining, objs')
    /\ forallb has_id remaining = true.
Proof.
  revert objs. induction l as [|e l IH]; intros objs Hall.
  - exists [], objs. split; reflexivity.
  - cbn [forallb] in Hall. apply andb_true_iff in Hall as [He Hl].
    destruct e as [[| | | | |d]|t]; simpl in He; try discriminate He.
    simpl. destruct (dict_get "title" d).
    + apply IH, Hl.
    + exists (Raw (PDict d) :: l), objs. split; [reflexivity|].
      simpl. now rewrite He, Hl.
Qed.

Lemma resolve_incomplete_no_client (l : list entry) (ids : list pyval)
    (objs : list Track) (w : World) :
  forallb has_id l = true ->
  exists f remaining,
    resolve_incomplete None l ids objs w = (Ok f, remaining, objs, w).
Proof.
  revert ids. induction l as [|e l IH]; intros ids Hall.
  - exists Fallthrough, []. reflexivity.
  - cbn [forallb] in Hall. apply andb_true_iff in Hall as [He Hl].
    destruct e as [[| | | | |d]|t]; simpl in He; try discriminate He.
    simpl. destruct (dict_get "id" d) as [v|]; [|discriminate He].
    destruct ((_ =? _)%nat || _).
    + exists Returned, l. reflexivity.
    + apply IH, Hl.
Qed.

End Completion.

(** ** C3: completion is idempotent *)

(** C3. When a call of [clean_attributes] has succeeded, a second call
    returns at once: its result is [None] without an exception, the
    playlist, and so its entry sequence, is the one the first call left,
    and the session is unchanged, so that no request is issued. This
    holds in whatever state the session is by then and whatever the
    network would answer. *)
Theorem complete_idempotent (env env' : Env) (self self' : Playlist)
    (w w' w'' : World) :
  @clean_attributes env self w = (Ok tt, self', w') ->
  @clean_attributes env' self' w'' = (Ok tt, self', w'').
Proof.
  intros Hfirst.
  apply clean_attributes_when_ready.
  pose proof (@clean_attributes_ready env self w) as Hready.
  now rewrite Hfirst in Hready.
Qed.

Lemma complete_idempotent_witness :
  @clean_attributes Demo.up Demo.two_stubs Demo.w0
    = (Ok tt, Demo.two_tracks, Demo.after_lookup)
  /\ @clean_attributes Demo.up Demo.two_tracks Demo.after_lookup
    = (Ok tt, Demo.two_tracks, Demo.after_lookup).
Proof.
  assert (H : @clean_attributes Demo.up Demo.two_stubs Demo.w0
              = (Ok tt, Demo.two_tracks, Demo.after_lookup))
    by (vm_compute; reflexivity).
  split; [exact H|].
  exact (complete_idempotent Demo.up Demo.up _ _ _ _ Demo.after_lookup H).
Defined.

(** ** C9: completion after a failure *)

(** C9, as stated, fails. The lookup of the two entries fails because
    nothing can be reached: the call raises, the playlist is left marked
    ready and without entries. A second call, now with the catalog in
    reach, returns at once, requests nothing and leaves the playlist
    empty, although the same call on the untouched playlist yields its
    two tracks. *)
Lemma retry_after_failure_does_nothing :
  exists (exc : exn) (w1 : World),
    let failed := mkPlaylist true [] (Some Api) in
    @clean_attributes Demo.down Demo.two_stubs Demo.w0 = (Raise exc, failed, w1)
    /\ @clean_attributes Demo.up failed w1 = (Ok tt, failed, w1)
    /\ tracks failed = []
    /\ @clean_attributes Demo.up Demo.two_stubs Demo.w0
       = (Ok tt, Demo.two_tracks, Demo.after_lookup).
Proof.
  eexists. eexists. cbv zeta.
  split; [vm_compute; reflexivity|].
  split; [reflexivity|].
  split; [reflexivity|].
  vm_compute; reflexivity.
Qed.

(** C9, amended. When a call of [clean_attributes] fails, the playlist
    stays marked ready, and a later call returns at once: it raises
    nothing, issues no request and leaves the entries as the failed call
    left them. *)
Theorem failed_completion_stays_ready (env env' : Env) (self self' : Playlist)
    (exc : exn) (w w' w'' : World) :
  @clean_attributes env self w = (Raise exc, self', w') ->
  ready self' = true
  /\ @clean_attributes env' self' w'' = (Ok tt, self', w'').
Proof.
  intros Hfirst.
  pose proof (@clean_attributes_ready env self w) as Hready.
  rewrite Hfirst in Hready. simpl in Hready.
  split; [exact Hready|].
  now apply clean_attributes_when_ready.
Qed.

Lemma failed_completion_stays_ready_witness :
  let failed := mkPlaylist true [] (Some Api) in
  let exc := mkExn TypeError "'bool' object is not iterable" in
  let w1 :=
    mkWorld
      [Request Demo.lookup_5_3;
       Stderr "<class 'aiohttp.client_exceptions.ClientError'> Cannot connect to host"]
      (Some "abc123") in
  @clean_attributes Demo.down Demo.two_stubs Demo.w0 = (Raise exc, failed, w1)
  /\ ready failed = true
  /\ @clean_attributes Demo.up failed Demo.w0 = (Ok tt, failed, Demo.w0).
Proof.
  cbv zeta.
  assert (H : @clean_attributes Demo.down Demo.two_stubs Demo.w0
              = (Raise (mkExn TypeError "'bool' object is not iterable"),
                 mkPlaylist true [] (Some Api),
                 mkWorld
                   [Request Demo.lookup_5_3;
                    Stderr "<class 'aiohttp.client_exceptions.ClientError'> Cannot connect to host"]
                   (Some "abc123")))
    by (vm_compute; reflexivity).
  split; [exact H|].
  exact (failed_completion_stays_ready Demo.down Demo.up _ _ _ _ _ Demo.w0 H).
Defined.

(** ** C7: completion without a client *)

(** C7, as stated, fails. A playlist of two id-only entries and no
    client: the call returns normally, with no exception at all. *)
Lemma orphan_completion_returns_silently :
  @clean_attributes Demo.down Demo.orphan Demo.w0
    = (Ok tt, mkPlaylist true [] None, Demo.w0)
  /\ ~ (exists exc, fst (fst (@clean_attributes Demo.down Demo.orphan Demo.w0))
                    = Raise exc).
Proof.
  split; [vm_compute; reflexivity|].
  intros [exc H]. vm_compute in H. discriminate H.
Qed.

(** C7, amended. For a playlist without a client whose entries, at least
    one, all are records with an id and without a title, that is, none of
    them materialised, [clean_attributes] returns normally: it raises
    nothing, issues no request (the session is unchanged) and leaves the
    playlist marked ready. No track object is built on the way. *)
Theorem complete_without_client (env : Env) (self : Playlist) (w : World) :
  p_client self = None ->
  tracks self <> [] ->
  forallb id_only (tracks self) = true ->
  exists self',
    clean_attributes self w = (Ok tt, self', w) /\ ready self' = true.
Proof.
  intros Hclient _ Honly.
  assert (Hids : forallb has_id (tracks self) = true).
  { apply forallb_forall. intros e He.
    rewrite forallb_forall in Honly. specialize (Honly e He).
    unfold id_only in Honly. now apply andb_true_iff in Honly as [Hid _]. }
  pose proof (clean_attributes_ready self w) as Hready.
  unfold clean_attributes in *.
  destruct (ready self) eqn:Hr.
  - exists self. split; [reflexivity|exact Hr].
  - rewrite Hclient in *.
    destruct (pop_completed_ok None (tracks self) [] Hids)
      as (remaining & objs & Hpop & Hrem).
    rewrite Hpop in *.
    destruct (resolve_incomplete_no_client remaining [] objs w Hrem)
      as (f & remaining' & Hres).
    rewrite Hres in *.
    destruct f; eexists; (split; [reflexivity|exact Hready]).
Qed.

Lemma complete_without_client_witness :
  p_client Demo.orphan = None
  /\ tracks Demo.orphan <> []
  /\ forallb id_only (tracks Demo.orphan) = true
  /\ exists self',
       @clean_attributes Demo.down Demo.orphan Demo.w0 = (Ok tt, self', Demo.w0)
       /\ ready self' = true.
Proof.
  split; [reflexivity|]. split; [discriminate|]. split; [reflexivity|].
  apply (complete_without_client Demo.down Demo.orphan Demo.w0);
    [reflexivity|discriminate|reflexivity].
Defined.

(** * Fetching JSON *)

(** C10. [get_obj_from] never raises. Either the response was fetched and
    decoded, and it is returned; or the transport or the decoder failed
    with some exception, and then, whichever of the two it was, the
    exception's class and message go to stderr and the value returned is
    [False], which is falsy. A caller sees the same value in both cases. *)
Theorem get_obj_from_never_raises (env : Env) (url : str) (w : World) :
  (exists obj,
      json_response url = Ok obj
      /\ get_obj_from url w = (Ok obj, emit [Request url] w))
  \/ (exists exc,
        (http_get url = Raise exc
         \/ exists body, http_get url = Ok body /\ json_loads body = Raise exc)
        /\ get_obj_from url w
           = (Ok (PBool false),
              emit [Request url;
                    Stderr (String.concat " " [class_repr (e_class exc); e_msg exc])] w)
        /\ truthy (PBool false) = false).
Proof.
  unfold get_obj_from, await, settled, json_response. simpl.
  destruct (http_get url) as [body|exc] eqn:Hget; simpl.
  - destruct (json_loads body) as [obj|exc] eqn:Hparse.
    + left. exists obj. split; reflexivity.
    + right. exists exc. split; [right; exists body; split; auto|].
      split; reflexivity.
  - right. exists exc. split; [left; reflexivity|]. split; reflexivity.
Qed.

(** * The stream URL *)

Section Stream.

Lemma issubclass_Exception (c : exn_class) : issubclass c Exception = true.
Proof. destruct c; reflexivity. Qed.

Lemma getitem_str_missing (v : pyval) (k : str) :
  (forall d, v = PDict d -> dict_get k d = None) ->
  exists exc, getitem_str v k = Raise exc.
Proof.
  intros Hmissing. destruct v; simpl; try (eexists; reflexivity).
  rewrite (Hmissing d eq_refl). eexists; reflexivity.
Qed.

End Stream.

(** C8, as stated, fails. The descriptor of the item 5 is an empty
    object and that of the item 3 lacks the field: in both cases
    [get_stream_url] returns [None] and raises nothing. *)
Lemma get_stream_url_raises_nothing :
  fst (@get_stream_url Demo.odd (mkTrack (Demo.item 5 "five") (Some Api)) Demo.w0)
    = Ok PNone
  /\ fst (@get_stream_url Demo.odd (mkTrack (Demo.item 3 "three") (Some Api)) Demo.w0)
    = Ok PNone.
Proof.
  split; vm_compute; reflexivity.
Qed.

(** C8, amended. When the descriptor response is falsy or has no [url]
    field, [get_stream_url] does not fail: it writes one line to stderr
    and returns [None]. *)
Theorem get_stream_url_returns_none (env : Env) (self : Track) (w w' : World)
    (prog_url : str) (stream_response : pyval) :
  get_prog_url self (client_id w) = Ok prog_url ->
  get_obj_from prog_url w = (Ok stream_response, w') ->
  truthy stream_response = false
  \/ (forall d, stream_response = PDict d -> dict_get "url" d = None) ->
  exists line, get_stream_url self w = (Ok PNone, emit [Stderr line] w').
Proof.
  intros Hprog Hobj Hbad.
  unfold get_stream_url, bind, get_client_id, lift, try_except.
  rewrite Hprog, Hobj.
  destruct (truthy stream_response) eqn:Htruthy; simpl.
  - destruct Hbad as [Hfalse|Hmissing]; [discriminate Hfalse|].
    destruct (getitem_str_missing stream_response "url" Hmissing) as [exc Hexc].
    rewrite Hexc. unfold isinstance. cbn [existsb].
    rewrite issubclass_Exception. eexists; reflexivity.
  - eexists; reflexivity.
Qed.

Lemma get_stream_url_returns_none_witness :
  let self := mkTrack (Demo.item 3 "three") (Some Api) in
  let response := PDict [("status", PStr "gone")] in
  let w' := emit [Request (Demo.descriptor "3")] Demo.w0 in
  @get_prog_url Demo.odd self (client_id Demo.w0) = Ok (Demo.descriptor "3")
  /\ @get_obj_from Demo.odd (Demo.descriptor "3") Demo.w0 = (Ok response, w')
  /\ (forall d, response = PDict d -> dict_get "url" d = None)
  /\ exists line,
       @get_stream_url Demo.odd self Demo.w0 = (Ok PNone, emit [Stderr line] w').
Proof.
  cbv zeta.
  assert (Hprog : @get_prog_url Demo.odd (mkTrack (Demo.item 3 "three") (Some Api))
                    (client_id Demo.w0) = Ok (Demo.descriptor "3"))
    by (vm_compute; reflexivity).
  assert (Hobj : @get_obj_from Demo.odd (Demo.descriptor "3") Demo.w0
                 = (Ok (PDict [("status", PStr "gone")]),
                    emit [Request (Demo.descriptor "3")] Demo.w0))
    by (vm_compute; reflexivity).
  assert (Hmissing : forall d, PDict [("status", PStr "gone")] = PDict d ->
                               dict_get "url" d = None)
    by (intros d Hd; injection Hd as <-; reflexivity).
  split; [exact Hprog|]. split; [exact Hobj|]. split; [exact Hmissing|].
  exact (get_stream_url_returns_none Demo.odd _ _ _ _ _ Hprog Hobj (or_intror Hmissing)).
Defined.

(** * The resolver *)

(** C6, as stated, fails. A profile page resolves to a record of kind
    [user]: [resolve] returns [None] and raises nothing. *)
Lemma resolve_user_returns_none :
  fst (@resolve Demo.odd Demo.profile Demo.w0) = Ok None
  /\ getitem_str Demo.user_42 "kind" = Ok (PStr "user").
Proof.
  split; vm_compute; reflexivity.
Qed.

(** C6, amended. When the looked-up response is truthy and the kind of
    its first element is none of [track], [playlist] and
    [system-playlist], [resolve] returns [None]: no object and no error. *)
Theorem resolve_other_kind (env : Env) (url : str) (w w' : World)
    (response obj kind : pyval) :
  resolve_lookup url w = (Ok response, w') ->
  truthy response = true ->
  getitem_0 response = Ok obj ->
  getitem_str obj "kind" = Ok kind ->
  existsb (py_eqb kind) [PStr "track"; PStr "playlist"; PStr "system-playlist"]
    = false ->
  resolve url w = (Ok None, w').
Proof.
  intros Hlookup Htruthy Hfirst Hkind Hother.
  cbn [existsb] in Hother.
  apply orb_false_iff in Hother as [Htrack Hother].
  unfold resolve, bind. rewrite Hlookup.
  unfold resolve_dispatch. rewrite Htruthy. cbn [negb].
  unfold bind, lift. rewrite Hfirst, Hkind, Htrack.
  cbn [existsb]. rewrite Hother. reflexivity.
Qed.

Lemma resolve_other_kind_witness :
  let w' := emit [Request Demo.profile; Request Demo.lookup_42] Demo.w0 in
  @resolve_lookup Demo.odd Demo.profile Demo.w0 = (Ok (PList [Demo.user_42]), w')
  /\ @resolve Demo.odd Demo.profile Demo.w0 = (Ok None, w').
Proof.
  cbv zeta.
  assert (H : @resolve_lookup Demo.odd Demo.profile Demo.w0
              = (Ok (PList [Demo.user_42]),
                 emit [Request Demo.profile; Request Demo.lookup_42] Demo.w0))
    by (vm_compute; reflexivity).
  split; [exact H|].
  exact (resolve_other_kind Demo.odd _ _ _ _ Demo.user_42 (PStr "user") H
           eq_refl eq_refl eq_refl eq_refl).
Defined.

(** * Waiting for several fetches *)

Section Gather.
Context {env : Env}.

Lemma emit_nil (w : World) : emit [] w = w.
Proof. destruct w as [t c]. unfold emit. simpl. now rewrite app_nil_r. Qed.

Lemma emit_emit (a b : list event) (w : World) :
  emit b (emit a w) = emit (a ++ b)%list w.
Proof. unfold emit. simpl. now rewrite app_assoc. Qed.

Lemma completion_order_complete (n i : nat) :
  i < n -> In i (completion_order n).
Proof.
  intros Hi. unfold completion_order.
  set (given := first_occurrences Nat.eqb _).
  apply in_or_app.
  destruct (existsb (Nat.eqb i) given) eqn:Hgiven.
  - left. apply existsb_exists in Hgiven as (j & Hj & Heq).
    apply Nat.eqb_eq in Heq. now subst j.
  - right. apply filter_In. split.
    + apply in_seq. lia.
    + now rewrite Hgiven.
Qed.

(** When no task raises, the wait ends normally, whatever the order. *)
Lemma settle_all_ok {A} (order : list nat) (outs : list (res A * list event))
    (w : World) :
  Forall (fun o => exists a, fst o = Ok a) outs ->
  exists w', settle order outs w = (Ok tt, w') /\ client_id w' = client_id w.
Proof.
  intros Hall. revert w. induction order as [|i order IH]; intros w.
  - exists w. split; reflexivity.
  - simpl. destruct (nth_error outs i) as [[r evs]|] eqn:Hnth.
    + apply nth_error_In in Hnth.
      rewrite Forall_forall in Hall. destruct (Hall _ Hnth) as [a Ha].
      simpl in Ha. subst r.
      destruct (IH (emit evs w)) as (w' & Hsettle & Hcid).
      exists w'. split; [exact Hsettle|]. now rewrite Hcid.
    + apply IH.
Qed.

(** When a task that takes part raises, the wait ends with the exception
    of some task that raised. *)
Lemma settle_raises {A} (order : list nat) (outs : list (res A * list event))
    (w : World) (i : nat) (e : exn) (evs : list event) :
  In i order ->
  nth_error outs i = Some (Raise e, evs) ->
  exists e' w' j evs',
    settle order outs w = (Raise e', w')
    /\ nth_error outs j = Some (Raise e', evs').
Proof.
  intros Hin Hnth. revert w.
  induction order as [|k order IH]; intros w; [contradiction|].
  simpl. destruct (nth_error outs k) as [[[a|e'] evs']|] eqn:Hk.
  - destruct Hin as [->|Hin]; [congruence|]. now apply IH.
  - exists e', (emit evs' w), k, evs'. split; [reflexivity|exact Hk].
  - destruct Hin as [->|Hin]; [congruence|]. now apply IH.
Qed.

(** Tasks that cause no events leave the session as it was when they
    settle. *)
Lemma settle_quiet {A} (order : list nat) (outs : list (res A * list event))
    (w : World) :
  Forall (fun o => snd o = []) outs ->
  snd (settle order outs w) = w.
Proof.
  intros Hquiet. revert w. induction order as [|i order IH]; intros w.
  - reflexivity.
  - simpl. destruct (nth_error outs i) as [[r evs]|] eqn:Hnth; [|apply IH].
    apply nth_error_In in Hnth. rewrite Forall_forall in Hquiet.
    specialize (Hquiet _ Hnth). simpl in Hquiet. subst evs.
    rewrite emit_nil. destruct r; [apply IH|reflexivity].
Qed.

Lemma settled_get_obj_from (url : str) :
  exists evs, settled (get_obj_from_task url) = (Ok (lookup_value url), evs).
Proof.
  unfold settled, lookup_value, json_response. simpl.
  destruct (res_bind (http_get url) json_loads); eexists; reflexivity.
Qed.

(** Waiting for lookups never fails: each lookup yields its value, and
    the values come in the order of the URLs. *)
Lemma gather_get_obj_from (urls : list str) (w : World) :
  exists w',
    gather (map get_obj_from_task urls) w = (Ok (map lookup_value urls), w')
    /\ client_id w' = client_id w.
Proof.
  unfold gather.
  set (outs := map settled (map get_obj_from_task urls)).
  assert (Hok : Forall (fun o => exists a, fst o = Ok a) outs).
  { unfold outs. apply Forall_forall. intros o Ho.
    apply in_map_iff in Ho as (t & <- & Ht).
    apply in_map_iff in Ht as (url & <- & _).
    destruct (settled_get_obj_from url) as [evs ->]. now eexists. }
  assert (Hvalues : res_map fst outs = Ok (map lookup_value urls)).
  { unfold outs. clear. induction urls as [|url urls IH]; [reflexivity|].
    cbn [map res_map].
    destruct (settled_get_obj_from url) as [evs ->]. cbn [fst res_bind].
    now rewrite IH. }
  destruct (settle_all_ok (completion_order (List.length (map get_obj_from_task urls)))
              outs (emit (map (fun t => Request (ft_url t)) (map get_obj_from_task urls)) w)
              Hok) as (w' & Hsettle & Hcid).
  exists w'. rewrite Hsettle. split; [now rewrite Hvalues|exact Hcid].
Qed.

Lemma quiet_get_resource (urls : list str) :
  Forall (fun o : res bytes * list event => snd o = [])
    (map settled (map get_resource_task urls)).
Proof.
  apply Forall_forall. intros o Ho.
  apply in_map_iff in Ho as (t & <- & Ht).
  apply in_map_iff in Ht as (url & <- & _). reflexivity.
Qed.

Lemma requests_get_resource (urls : list str) :
  map (fun t : fetch_task bytes => Request (ft_url t)) (map get_resource_task urls)
  = map Request urls.
Proof. rewrite map_map. reflexivity. Qed.

Lemma outs_get_resource (urls : list str) :
  res_map fst (map settled (map get_resource_task urls)) = res_map http_get urls.
Proof.
  induction urls as [|url urls IH]; [reflexivity|].
  cbn [map res_map]. unfold settled at 1. cbn [get_resource_task ft_then ft_url fst].
  now rewrite IH.
Qed.

(** Waiting for fetches that all succeed yields the bodies in the order
    of the URLs. *)
Lemma gather_get_resource_ok (urls : list str) (bodies : list bytes) (w : World) :
  res_map http_get urls = Ok bodies ->
  gather (map get_resource_task urls) w = (Ok bodies, emit (map Request urls) w).
Proof.
  intros Hbodies. unfold gather.
  rewrite requests_get_resource, outs_get_resource, Hbodies.
  set (outs := map settled (map get_resource_task urls)).
  assert (Hok : Forall (fun o => exists a, fst o = Ok a) outs).
  { unfold outs. clear w. revert bodies Hbodies.
    induction urls as [|url urls IH]; intros bodies Hbodies; [constructor|].
    cbn [map res_map] in *. destruct (http_get url) as [body|e] eqn:Hget;
      [|discriminate Hbodies].
    cbn [res_bind] in Hbodies.
    destruct (res_map http_get urls) as [rest|e]; [|discriminate Hbodies].
    constructor; [|now apply (IH rest)].
    exists body. unfold settled. simpl. exact Hget. }
  pose proof (settle_quiet (completion_order (List.length (map get_resource_task urls)))
                outs (emit (map Request urls) w) (quiet_get_resource urls)) as Hquiet.
  destruct (settle_all_ok (completion_order (List.length (map get_resource_task urls)))
              outs (emit (map Request urls) w) Hok) as (w' & Hsettle & _).
  rewrite Hsettle in *. simpl in Hquiet. now subst w'.
Qed.

(** Waiting for fetches of which one fails ends with the exception of a
    fetch that failed; every request has been issued by then. *)
Lemma gather_get_resource_fails (urls : list str) (url : str) (e : exn) (w : World) :
  In url urls ->
  http_get url = Raise e ->
  exists e' url',
    gather (map get_resource_task urls) w = (Raise e', emit (map Request urls) w)
    /\ In url' urls /\ http_get url' = Raise e'.
Proof.
  intros Hin Hfail. unfold gather.
  rewrite requests_get_resource.
  set (outs := map settled (map get_resource_task urls)).
  set (order := completion_order _).
  apply In_nth_error in Hin as [i Hi].
  assert (Hout : nth_error outs i = Some (Raise e, [])).
  { unfold outs. rewrite map_map.
    erewrite map_nth_error by exact Hi.
    unfold settled. simpl. now rewrite Hfail. }
  assert (Hlt : i < List.length (map get_resource_task urls)).
  { rewrite length_map. apply nth_error_Some. congruence. }
  destruct (settle_raises order outs (emit (map Request urls) w) i e []
              (completion_order_complete _ _ Hlt) Hout)
    as (e' & w' & j & evs' & Hsettle & Hj).
  pose proof (settle_quiet order outs (emit (map Request urls) w)
                (quiet_get_resource urls)) as Hquiet.
  rewrite Hsettle in *. simpl in Hquiet. subst w'.
  unfold outs in Hj. rewrite map_map in Hj.
  apply nth_error_In in Hj. apply in_map_iff in Hj as (url' & Heq & Hin').
  unfold settled in Heq. simpl in Heq. injection Heq as Heq _.
  exists e', url'. split; [reflexivity|]. split; assumption.
Qed.

End Gather.

(** * The batch lookup *)

Section Lookup.
Context {env : Env}.

Lemma iterate_fails_with_TypeError (v : pyval) (e : exn) :
  iterate v = Raise e -> e_class e = TypeError.
Proof.
  destruct v; simpl; intros H; try discriminate H; now injection H as <-.
Qed.

Lemma res_map_iterate_fails (l : list pyval) (v : pyval) (e : exn) :
  In v l -> iterate v = Raise e ->
  exists msg, res_map iterate l = Raise (mkExn TypeError msg).
Proof.
  intros Hin Hfail. induction l as [|x l IH]; [contradiction|].
  cbn [res_map]. destruct (iterate x) as [xs|e'] eqn:Hx.
  - destruct Hin as [->|Hin]; [congruence|].
    destruct (IH Hin) as [msg ->]. now exists msg.
  - apply iterate_fails_with_TypeError in Hx.
    destruct e' as [c msg]. simpl in Hx. subst c. now exists msg.
Qed.

(** A session that holds a credential needs no discovery. *)
Lemma ensure_credentials_held (w : World) :
  no_client_id (client_id w) = false -> ensure_credentials w = (Ok tt, w).
Proof.
  intros Hheld. unfold ensure_credentials, bind, get_client_id.
  now rewrite Hheld.
Qed.

(** [get_tracks] once the session has its credential: the lookups, and
    the rest of the function on their values. *)
Lemma get_tracks_with_credential (track_ids : list pyval) (w w0 : World) :
  ensure_credentials w = (Ok tt, w0) ->
  exists w',
    get_tracks track_ids w
    = (res_bind
         (res_map iterate
            (map lookup_value (format_get_tracks_urls (client_id w0) track_ids)))
         (fun chained =>
            sorted (fun x => res_bind (getitem_str x "id") (index track_ids))
              (List.concat chained)),
       w').
Proof.
  intros Hcred. unfold get_tracks. unfold bind at 1. rewrite Hcred.
  unfold bind, get_client_id.
  destruct (gather_get_obj_from (format_get_tracks_urls (client_id w0) track_ids) w0)
    as (w' & -> & _).
  exists w'. unfold lift.
  destruct (res_map iterate _); reflexivity.
Qed.

End Lookup.

(** ** C5: a failed chunk request *)

(** C5, as stated, fails. Nothing can be reached, so the one chunk
    request fails: [get_tracks] raises a [TypeError], which is not a
    [LookupError]. *)
Lemma failed_chunk_raises_TypeError :
  let exc := mkExn TypeError "'bool' object is not iterable" in
  fst (@get_tracks Demo.down [PInt 5; PInt 3] Demo.w0) = Raise exc
  /\ isinstance exc [LookupError] = false.
Proof.
  split; vm_compute; reflexivity.
Qed.

(** C5, amended. Once the session has its credential, held or just
    discovered, when one of the chunk requests fails, in the transport or
    in the decoding of the response, [get_tracks] fails as a whole: it
    raises a [TypeError] and returns no list, partial or not. *)
Theorem get_tracks_fail_fast (env : Env) (track_ids : list pyval) (w w0 : World)
    (url : str) (exc : exn) :
  ensure_credentials w = (Ok tt, w0) ->
  In url (format_get_tracks_urls (client_id w0) track_ids) ->
  json_response url = Raise exc ->
  exists msg w', get_tracks track_ids w = (Raise (mkExn TypeError msg), w').
Proof.
  intros Hcred Hurl Hfail.
  destruct (get_tracks_with_credential track_ids w w0 Hcred) as [w' ->].
  assert (Hin : In (PBool false)
                  (map lookup_value (format_get_tracks_urls (client_id w0) track_ids))).
  { apply in_map_iff. exists url. split; [|exact Hurl].
    unfold lookup_value. now rewrite Hfail. }
  destruct (res_map_iterate_fails _ (PBool false) _ Hin eq_refl) as [msg ->].
  exists msg, w'. reflexivity.
Qed.

Lemma get_tracks_fail_fast_witness :
  @ensure_credentials Demo.down Demo.w0 = (Ok tt, Demo.w0)
  /\ In Demo.lookup_5_3
       (@format_get_tracks_urls Demo.down (client_id Demo.w0) [PInt 5; PInt 3])
  /\ @json_response Demo.down Demo.lookup_5_3
     = Raise (mkExn ClientError "Cannot connect to host")
  /\ exists msg w',
       @get_tracks Demo.down [PInt 5; PInt 3] Demo.w0
       = (Raise (mkExn TypeError msg), w').
Proof.
  assert (Hurl : In Demo.lookup_5_3
                   (@format_get_tracks_urls Demo.down (client_id Demo.w0)
                      [PInt 5; PInt 3]))
    by (left; vm_compute; reflexivity).
  assert (Hfail : @json_response Demo.down Demo.lookup_5_3
                  = Raise (mkExn ClientError "Cannot connect to host"))
    by (vm_compute; reflexivity).
  split; [reflexivity|]. split; [exact Hurl|]. split; [exact Hfail|].
  exact (get_tracks_fail_fast Demo.down _ Demo.w0 Demo.w0 _ _ eq_refl Hurl Hfail).
Defined.

(** * Credential discovery *)

(** C2, as stated, fails. The catalog page lists two scripts; the first
    cannot be fetched, the second names the token. Discovery raises the
    exception of the failed fetch, although the token can be found in the
    body that was retrieved. *)
Lemma discovery_fails_with_one_script :
  fst (@fetch_soundcloud_client_id Demo.half Demo.fresh)
    = Raise (mkExn ClientError "Cannot connect to host")
  /\ @find_script_urls Demo.half Demo.page = [Demo.script_0; Demo.script_1]
  /\ (exists e, @http_get Demo.half Demo.script_0 = Raise e)
  /\ (exists body text,
        @http_get Demo.half Demo.script_1 = Ok body
        /\ @decode Demo.half body = Ok text
        /\ @find_client_id Demo.half text = Some "abc123").
Proof.
  split; [vm_compute; reflexivity|].
  split; [vm_compute; reflexivity|].
  split; [eexists; vm_compute; reflexivity|].
  eexists. eexists.
  split; [vm_compute; reflexivity|].
  split; vm_compute; reflexivity.
Qed.

(** C2, amended. Once the catalog page is fetched and decoded, every
    script URL it lists is requested, in extraction order, whether or not
    some fetch fails. When all the fetches succeed and every body decodes
    as text, the texts are concatenated in extraction order and the token
    found in the concatenation is returned. When a fetch fails, discovery
    fails with the exception of a failed fetch; when all the fetches
    succeed and a body does not decode, discovery fails with the
    exception of the decoding. *)
Theorem discovery_needs_every_script (env : Env) (w : World) (url : str)
    (page_text : bytes) (page : str) :
  random_choice SCRAPE_URLS = Ok url ->
  http_get url = Ok page_text ->
  decode page_text = Ok page ->
  let script_urls := find_script_urls page in
  let issued := emit (Request url :: map Request script_urls) w in
  (forall bodies texts,
      res_map http_get script_urls = Ok bodies ->
      res_map decode bodies = Ok texts ->
      fetch_soundcloud_client_id w
      = (Ok (find_client_id (String.concat EmptyString texts)), issued))
  /\ (forall script e,
        In script script_urls ->
        http_get script = Raise e ->
        exists e' script',
          fetch_soundcloud_client_id w = (Raise e', issued)
          /\ In script' script_urls /\ http_get script' = Raise e')
  /\ (forall bodies e,
        res_map http_get script_urls = Ok bodies ->
        res_map decode bodies = Raise e ->
        fetch_soundcloud_client_id w = (Raise e, issued)).
Proof.
  intros Hchoice Hpage Hdecode script_urls issued.
  assert (Hstart :
             fetch_soundcloud_client_id w
             = bind (gather (map get_resource_task script_urls))
                    (fun results =>
                       texts <- lift (res_map decode results) ;;
                       ret (find_client_id (String.concat EmptyString texts)))
                    (emit [Request url] w)).
  { unfold fetch_soundcloud_client_id, bind at 1, lift at 1.
    rewrite Hchoice. unfold bind at 1, get_resource, await, settled. simpl.
    rewrite Hpage. simpl. unfold bind at 1, lift at 1. rewrite Hdecode.
    reflexivity. }
  assert (Hissued : emit (map Request script_urls) (emit [Request url] w) = issued)
    by (unfold issued; now rewrite emit_emit).
  split.
  - intros bodies texts Hbodies Htexts. rewrite Hstart. unfold bind at 1.
    rewrite (gather_get_resource_ok _ _ _ Hbodies), Hissued.
    unfold bind, lift. rewrite Htexts. reflexivity.
  - split.
    + intros script e Hin Hfail. rewrite Hstart. unfold bind at 1.
      destruct (gather_get_resource_fails script_urls script e
                  (emit [Request url] w) Hin Hfail)
        as (e' & script' & -> & Hin' & Hfail').
      rewrite Hissued. exists e', script'. repeat split; assumption.
    + intros bodies e Hbodies Hbad. rewrite Hstart. unfold bind at 1.
      rewrite (gather_get_resource_ok _ _ _ Hbodies), Hissued.
      unfold bind, lift. rewrite Hbad. reflexivity.
Qed.

Lemma discovery_needs_every_script_witness :
  let url := "https://soundcloud.com/mt-marcy/cold-nights" in
  let issued :=
    emit [Request url; Request Demo.script_0; Request Demo.script_1] Demo.fresh in
  @fetch_soundcloud_client_id Demo.whole Demo.fresh = (Ok (Some "abc123"), issued)
  /\ exists e' script',
       @fetch_soundcloud_client_id Demo.half Demo.fresh = (Raise e', issued)
       /\ In script' [Demo.script_0; Demo.script_1]
       /\ @http_get Demo.half script' = Raise e'.
Proof.
  cbv zeta. split.
  - exact (proj1 (discovery_needs_every_script Demo.whole Demo.fresh
                    "https://soundcloud.com/mt-marcy/cold-nights"
                    (Demo.b Demo.page) Demo.page eq_refl eq_refl eq_refl)
             [Demo.b "var y=0;"; Demo.b "var x={client_id:abc123}"]
             ["var y=0;"; "var x={client_id:abc123}"] eq_refl eq_refl).
  - exact (proj1 (proj2 (discovery_needs_every_script Demo.half Demo.fresh
                    "https://soundcloud.com/mt-marcy/cold-nights"
                    (Demo.b Demo.page) Demo.page eq_refl eq_refl eq_refl))
             Demo.script_0 (mkExn ClientError "Cannot connect to host")
             (or_introl eq_refl) eq_refl).
Defined.

(** * Stream reconstruction *)

Section Reconstruction.
Context {env : Env}.

Lemma file_events_emit (evs : list event) (w : World) :
  file_events (trace (emit evs w)) = (file_events (trace w) ++ file_events evs)%list.
Proof. unfold file_events, emit. simpl. apply filter_app. Qed.

(** The URLs to fetch are the decoded lines that are not comments, in
    the order of the manifest. *)
Lemma segment_urls_lines (lines : list bytes) (urls : list str) :
  segment_urls lines = Ok urls ->
  map decode (filter (fun line => negb (startswith HASH line)) lines)
  = map Ok urls.
Proof.
  revert urls. induction lines as [|line lines IH]; intros urls H.
  - simpl in H. now injection H as <-.
  - simpl in *. destruct (negb (startswith HASH line)).
    + destruct (decode line) as [url|e] eqn:Hline; [|discriminate H].
      cbn [res_bind] in H.
      destruct (segment_urls lines) as [rest|e]; [|discriminate H].
      cbn [res_bind] in H. injection H as <-.
      simpl. now rewrite Hline, (IH rest eq_refl).
    + now apply IH.
Qed.

Lemma res_map_length {A B} (f : A -> res B) (l : list A) (l' : list B) :
  res_map f l = Ok l' -> List.length l' = List.length l.
Proof.
  revert l'. induction l as [|x l IH]; intros l' H.
  - simpl in H. now injection H as <-.
  - simpl in H. destruct (f x); [|discriminate H]. cbn [res_bind] in H.
    destruct (res_map f l) as [ys|]; [|discriminate H].
    cbn [res_bind] in H. injection H as <-. simpl. now rewrite (IH ys).
Qed.

Lemma file_events_fetched_and_written (urls : list str) (segments : list bytes) :
  List.length segments = List.length urls ->
  file_events (fetched_and_written urls segments) = map FileWrite segments.
Proof.
  revert segments. induction urls as [|url urls IH]; intros [|data segments] H;
    try discriminate H; [reflexivity|].
  simpl. unfold file_events in IH. rewrite IH; [reflexivity|].
  simpl in H. lia.
Qed.

(** The loop over the segments, started when [pre] has been written over
    the [old] content: each segment is fetched, then written after the
    ones before it. *)
Lemma write_loop (urls : list str) :
  forall (segments : list bytes) (pre old : bytes) (w : World),
    res_map http_get urls = Ok segments ->
    for_each urls
      (fun chunk => data <- on_world (get_resource chunk) ;; file_write data)
      (mkFile BinaryReadWrite (pre ++ skipn (List.length pre) old)%list
         (List.length pre), w)
    = (Ok tt,
       (mkFile BinaryReadWrite
          ((pre ++ List.concat segments)
           ++ skipn (List.length (pre ++ List.concat segments)) old)%list
          (List.length (pre ++ List.concat segments)%list),
        emit (fetched_and_written urls segments) w)).
Proof.
  induction urls as [|url urls IH]; intros segments pre old w Hfetch.
  - simpl in Hfetch. injection Hfetch as <-. simpl.
    now rewrite app_nil_r, emit_nil.
  - simpl in Hfetch. destruct (http_get url) as [data|e] eqn:Hurl;
      [|discriminate Hfetch].
    cbn [res_bind] in Hfetch.
    destruct (res_map http_get urls) as [rest|e] eqn:Hrest; [|discriminate Hfetch].
    cbn [res_bind] in Hfetch. injection Hfetch as <-.
    cbn [for_each]. unfold bind at 1. unfold bind at 1.
    unfold on_world, get_resource, await, settled. cbn.
    rewrite Hurl. cbn.
    rewrite firstn_app, firstn_all, Nat.sub_diag, firstn_O, app_nil_r.
    replace (List.length pre - List.length (pre ++ skipn (List.length pre) old)%list)
      with 0 by (rewrite length_app; lia).
    rewrite skipn_app, length_app.
    replace (skipn (List.length pre + List.length data) pre) with (@nil ascii)
      by (symmetry; apply skipn_all2; lia).
    replace (List.length pre + List.length data - List.length pre)
      with (List.length data) by lia.
    rewrite skipn_skipn.
    replace (List.length data + List.length pre)
      with (List.length (pre ++ data)%list) by (rewrite length_app; lia).
    cbn [repeat app].
    replace (pre ++ data ++ skipn (List.length (pre ++ data)%list) old)%list
      with ((pre ++ data) ++ skipn (List.length (pre ++ data)%list) old)%list
      by now rewrite app_assoc.
    replace (List.length pre + List.length data)
      with (List.length (pre ++ data)%list) by (rewrite length_app; lia).
    rewrite (IH rest (pre ++ data)%list old _ eq_refl).
    rewrite emit_emit, emit_emit. cbn [List.concat app].
    rewrite <- !app_assoc, !length_app. reflexivity.
Qed.

Ltac quiet :=
  unfold file_events, emit; cbn [trace fst snd];
  repeat rewrite filter_app; cbn [filter is_file_event];
  repeat rewrite app_nil_r; reflexivity.

(** What is done to find the stream URL does not touch the sink. *)
Lemma get_stream_url_quiet (self : Track) (w : World) :
  file_events (trace (snd (get_stream_url self w))) = file_events (trace w).
Proof.
  unfold get_stream_url, bind, get_client_id, lift.
  destruct (get_prog_url self (client_id w)) as [prog|e]; [|reflexivity].
  unfold get_obj_from, await, settled, try_except. cbn.
  destruct (res_bind (http_get prog) json_loads) as [obj|e]; cbn.
  - destruct (truthy obj); cbn.
    + destruct (getitem_str obj "url") as [v|e]; cbn; [quiet|].
      destruct (_ || _); cbn; quiet.
    + quiet.
  - quiet.
Qed.

(** Neither does the artwork step, nor the handler of the exceptions. *)
Lemma write_artwork_quiet (self : Track) (file : file_obj) (w : World) :
  file_events
    (trace (snd (snd (try_except (write_artwork self) [TypeError; ValueError]
                        report_wrong_mode (file, w)))))
  = file_events (trace w).
Proof.
  assert (Hhandler : forall exc f w0,
             file_events (trace (snd (snd (report_wrong_mode exc (f, w0)))))
             = file_events (trace w0)).
  { intros exc f w0. unfold report_wrong_mode, bind, on_world, eprint, log, lift.
    cbn. quiet. }
  unfold try_except.
  destruct (write_artwork self (file, w)) as [r [file' w']] eqn:Hrun.
  assert (Hquiet : file_events (trace w') = file_events (trace w)).
  { unfold write_artwork, bind in Hrun.
    destruct (truthy (artwork_url self)).
    - unfold lift in Hrun.
      destruct (get_large_artwork_url (artwork_url self)) as [url|e].
      + unfold on_world, get_resource, await, settled in Hrun. cbn in Hrun.
        destruct (http_get url) as [art|e]; cbn in Hrun.
        * destruct (write_track_id3 self file (Some art)) as [r' f'].
          injection Hrun as _ _ <-. quiet.
        * injection Hrun as _ _ <-. quiet.
      + injection Hrun as _ _ <-. reflexivity.
    - unfold ret in Hrun. cbn in Hrun.
      destruct (write_track_id3 self file None) as [r' f'].
      injection Hrun as _ _ <-. reflexivity. }
  destruct r as [u|exc]; [exact Hquiet|].
  destruct (isinstance exc [TypeError; ValueError]); [|exact Hquiet].
  now rewrite Hhandler.
Qed.

End Reconstruction.

(** C4. The sink is open for reading and writing bytes, the stream URL
    is found, the manifest is fetched, its lines that are not comments
    decode to [urls], and each of these is fetched, giving [segments].
    Then:
    - [urls] are exactly the lines of the manifest that do not start with
      [#], in manifest order, so that no comment line is fetched or
      written;
    - up to the second [seek], the position is first set to the start,
      then each segment is requested and written before the next one is
      requested, in manifest order, then the position is set to the start
      again; the sink then holds the bytes of the segments, one after the
      other, from its start;
    - [write_mp3_to] goes on from there with the artwork and the tags;
    - over the whole call, these are the only things done to the sink:
      a seek to the start, the writes of the segments in order, a seek to
      the start. *)
Theorem write_mp3_to_in_manifest_order (env : Env) (self : Track)
    (file : file_obj) (w w1 : World) (manifest_url : str) (manifest : bytes)
    (urls : list str) (segments : list bytes) :
  f_mode file = BinaryReadWrite ->
  get_stream_url self (emit [FileSeek 0] w) = (Ok (PStr manifest_url), w1) ->
  http_get manifest_url = Ok manifest ->
  segment_urls (splitlines manifest) = Ok urls ->
  res_map http_get urls = Ok segments ->
  let data := List.concat segments in
  let written :=
    mkFile BinaryReadWrite (data ++ skipn (List.length data) (f_data file))%list 0 in
  let w2 :=
    emit (Request manifest_url :: fetched_and_written urls segments
          ++ [FileSeek 0])%list w1 in
  map decode (segment_lines manifest) = map Ok urls
  /\ write_segments self (file, w) = (Ok tt, (written, w2))
  /\ write_mp3_to self (file, w)
     = try_except (write_artwork self) [TypeError; ValueError] report_wrong_mode
         (written, w2)
  /\ file_events (trace (snd (snd (write_mp3_to self (file, w)))))
     = (file_events (trace w)
        ++ FileSeek 0 :: map FileWrite segments ++ [FileSeek 0])%list.
Proof.
  intros Hmode Hstream Hmanifest Hurls Hsegments data written w2.
  assert (Hsegs : write_segments self (file, w) = (Ok tt, (written, w2))).
  { unfold write_segments. unfold bind at 1.
    destruct file as [mode old pos]. simpl in Hmode. subst mode.
    cbn [file_seek f_mode f_data].
    unfold bind at 1. unfold on_world at 1. cbn [fst snd]. rewrite Hstream.
    unfold bind at 1. unfold on_world at 1, get_resource_at, get_resource,
      await, settled. cbn [fst snd ft_url ft_then get_resource_task].
    rewrite Hmanifest. cbn [fst snd].
    unfold bind at 1, lift at 1. rewrite Hurls.
    unfold bind at 1.
    rewrite (write_loop urls segments [] old _ Hsegments).
    cbn [List.length app skipn file_seek f_mode f_data].
    unfold written, w2, data. cbn [f_data].
    rewrite !emit_emit. cbn [app]. reflexivity. }
  assert (Hwhole : write_mp3_to self (file, w)
                   = try_except (write_artwork self) [TypeError; ValueError]
                       report_wrong_mode (written, w2)).
  { unfold write_mp3_to, try_except, bind. now rewrite Hsegs. }
  split; [exact (segment_urls_lines _ _ Hurls)|].
  split; [exact Hsegs|]. split; [exact Hwhole|].
  rewrite Hwhole, write_artwork_quiet.
  unfold w2. rewrite file_events_emit.
  pose proof (get_stream_url_quiet self (emit [FileSeek 0] w)) as Hquiet.
  rewrite Hstream in Hquiet. cbn [snd] in Hquiet.
  rewrite Hquiet, file_events_emit.
  cbn [file_events filter is_file_event]. fold (file_events (trace w)).
  change (filter is_file_event (fetched_and_written urls segments ++ [FileSeek 0]))
    with (file_events (fetched_and_written urls segments ++ [FileSeek 0])).
  unfold file_events at 2. rewrite filter_app.
  fold (file_events (fetched_and_written urls segments)).
  rewrite (file_events_fetched_and_written urls segments
             (res_map_length _ _ _ Hsegments)).
  cbn [filter is_file_event]. rewrite <- app_assoc. reflexivity.
Qed.

Lemma write_mp3_to_in_manifest_order_witness :
  segment_lines (Demo.b Demo.manifest)
    = [Demo.b Demo.segment_0; Demo.b Demo.segment_1]
  /\ @write_segments Demo.radio Demo.track_7 (Demo.old_file, Demo.w0)
     = (Ok tt,
        (mkFile BinaryReadWrite (Demo.b "ID3abcdefghBCDEF") 0,
         emit [FileSeek 0;
               Request (Demo.descriptor "7");
               Request Demo.manifest_url;
               Request Demo.segment_0; FileWrite (Demo.b "ID3abc");
               Request Demo.segment_1; FileWrite (Demo.b "defgh");
               FileSeek 0] Demo.w0))
  /\ file_events
       (trace (snd (snd (@write_mp3_to Demo.radio Demo.track_7
                           (Demo.old_file, Demo.w0)))))
     = [FileSeek 0; FileWrite (Demo.b "ID3abc"); FileWrite (Demo.b "defgh");
        FileSeek 0].
Proof.
  pose proof (write_mp3_to_in_manifest_order Demo.radio Demo.track_7
                Demo.old_file Demo.w0
                (emit [FileSeek 0; Request (Demo.descriptor "7")] Demo.w0)
                Demo.manifest_url (Demo.b Demo.manifest)
                [Demo.segment_0; Demo.segment_1]
                [Demo.b "ID3abc"; Demo.b "defgh"]
                eq_refl eq_refl eq_refl eq_refl eq_refl)
    as (Hlines & Hsegs & _ & Hevents).
  split; [vm_compute; reflexivity|].
  split; [exact Hsegs|exact Hevents].
Defined.

(** * Sorting by key *)

Section Sorting.
Context {A : Type}.

Lemma insert_by_key_perm (x : nat * A) (l : list (nat * A)) :
  Permutation (insert_by_key x l) (x :: l).
Proof.
  induction l as [|y l IH]; simpl; [reflexivity|].
  destruct (fst x <=? fst y)%nat; [reflexivity|].
  rewrite IH. apply perm_swap.
Qed.

Lemma sort_by_key_perm (l : list (nat * A)) : Permutation (sort_by_key l) l.
Proof.
  induction l as [|x l IH]; simpl; [reflexivity|].
  rewrite insert_by_key_perm. now constructor.
Qed.

Lemma insert_by_key_sorted (x : nat * A) (l : list (nat * A)) :
  StronglySorted key_le l -> StronglySorted key_le (insert_by_key x l).
Proof.
  induction 1 as [|y l Hsorted IH Hall]; simpl.
  - repeat constructor.
  - destruct (fst x <=? fst y)%nat eqn:Hle.
    + apply Nat.leb_le in Hle. constructor; [now constructor|].
      constructor; [exact Hle|].
      eapply Forall_impl; [|exact Hall].
      intros z Hz. unfold key_le in *. lia.
    + apply Nat.leb_gt in Hle. constructor; [exact IH|].
      eapply Permutation_Forall; [symmetry; apply insert_by_key_perm|].
      constructor; [unfold key_le; lia|exact Hall].
Qed.

Lemma sort_by_key_sorted (l : list (nat * A)) :
  StronglySorted key_le (sort_by_key l).
Proof.
  induction l as [|x l IH]; simpl; [constructor|].
  now apply insert_by_key_sorted.
Qed.

Lemma keys_sorted (f : A -> nat) (l : list (nat * A)) :
  StronglySorted key_le l ->
  Forall (fun p => fst p = f (snd p)) l ->
  StronglySorted le (map f (map snd l)).
Proof.
  induction 1 as [|p rest _ IH Hall]; intros Hpairs; [constructor|].
  apply Forall_cons_iff in Hpairs as [Hp Hrest].
  cbn [map]. constructor; [now apply IH|].
  apply Forall_forall. intros k Hk.
  apply in_map_iff in Hk as (x & <- & Hx).
  apply in_map_iff in Hx as (q & <- & Hq).
  rewrite Forall_forall in Hall, Hrest.
  rewrite <- Hp, <- (Hrest q Hq). exact (Hall q Hq).
Qed.

(** Sorting a list by a key that never fails: a permutation of the list
    whose keys increase. *)
Lemma sorted_total (f : A -> nat) (key : A -> res nat) (l : list A) :
  Forall (fun x => key x = Ok (f x)) l ->
  exists out,
    sorted key l = Ok out
    /\ Permutation out l
    /\ StronglySorted le (map f out).
Proof.
  intros Hkey. unfold sorted.
  assert (Hkeys : res_map (fun x => res_bind (key x) (fun k => Ok (k, x))) l
                  = Ok (map (fun x => (f x, x)) l)).
  { induction Hkey as [|x l Hx _ IH]; [reflexivity|].
    cbn [res_map map]. rewrite Hx. cbn [res_bind]. now rewrite IH. }
  rewrite Hkeys. cbn [res_bind].
  set (kl := map (fun x => (f x, x)) l).
  exists (map snd (sort_by_key kl)). split; [reflexivity|].
  pose proof (sort_by_key_perm kl) as Hperm.
  assert (Hpairs : Forall (fun p => fst p = f (snd p)) (sort_by_key kl)).
  { eapply Permutation_Forall; [symmetry; exact Hperm|].
    unfold kl. apply Forall_forall. intros p Hp.
    apply in_map_iff in Hp as (x & <- & _). reflexivity. }
  split.
  - replace l with (map snd kl).
    + now apply Permutation_map.
    + unfold kl. rewrite map_map. apply map_id.
  - apply keys_sorted; [apply sort_by_key_sorted|exact Hpairs].
Qed.

End Sorting.

Section Order.

Lemma StronglySorted_in {B} (R R' : B -> B -> Prop) (l : list B) :
  StronglySorted R l ->
  (forall a b, In a l -> In b l -> R a b -> R' a b) ->
  StronglySorted R' l.
Proof.
  induction 1 as [|x l Hsorted IH Hall]; intros Himpl; [constructor|].
  constructor.
  - apply IH. intros a b Ha Hb. apply Himpl; now right.
  - rewrite Forall_forall in *. intros y Hy.
    apply Himpl; [now left|now right|now apply Hall].
Qed.

Lemma StronglySorted_filter {B} (R : B -> B -> Prop) (f : B -> bool) (l : list B) :
  StronglySorted R l -> StronglySorted R (filter f l).
Proof.
  induction 1 as [|x l Hsorted IH Hall]; simpl; [constructor|].
  destruct (f x); [|exact IH].
  constructor; [exact IH|].
  rewrite Forall_forall in *. intros y Hy.
  apply filter_In in Hy as [Hy _]. now apply Hall.
Qed.

(** Two lists with the same elements, both in strictly increasing order
    of a key, are the same list. *)
Lemma strictly_sorted_unique {B} (g : B -> nat) (l1 l2 : list B) :
  StronglySorted (fun a b => g a < g b) l1 ->
  StronglySorted (fun a b => g a < g b) l2 ->
  Permutation l1 l2 ->
  l1 = l2.
Proof.
  intros H1. revert l2.
  induction H1 as [|a l1 Hs1 IH Hall1]; intros l2 H2 Hperm.
  - now apply Permutation_nil in Hperm.
  - destruct H2 as [|b l2 Hs2 Hall2].
    + apply Permutation_sym, Permutation_nil in Hperm. discriminate Hperm.
    + assert (Hab : a = b).
      { rewrite Forall_forall in Hall1, Hall2.
        assert (Ha : In a (b :: l2))
          by (eapply Permutation_in; [exact Hperm|now left]).
        assert (Hb : In b (a :: l1))
          by (eapply Permutation_in; [symmetry; exact Hperm|now left]).
        destruct Ha as [Ha|Ha]; [now symmetry|].
        destruct Hb as [Hb|Hb]; [exact Hb|].
        specialize (Hall1 _ Hb). specialize (Hall2 _ Ha). lia. }
      subst b. f_equal. apply IH; [exact Hs2|].
      now apply Permutation_cons_inv in Hperm.
Qed.

Lemma position_head (z : Z) (zs : list Z) : position z (z :: zs) = 0.
Proof. simpl. now rewrite Z.eqb_refl. Qed.

Lemma position_tail (x z : Z) (zs : list Z) :
  z <> x -> position z (x :: zs) = S (position z zs).
Proof.
  intros Hne. simpl. destruct (x =? z)%Z eqn:Heq; [|reflexivity].
  apply Z.eqb_eq in Heq. congruence.
Qed.

Lemma position_injective (zs : list Z) (a b : Z) :
  In a zs -> In b zs -> position a zs = position b zs -> a = b.
Proof.
  induction zs as [|x zs IH]; intros Ha Hb Heq; [contradiction|].
  simpl in Heq.
  destruct (x =? a)%Z eqn:Hxa, (x =? b)%Z eqn:Hxb; try discriminate Heq.
  - apply Z.eqb_eq in Hxa, Hxb. congruence.
  - apply Z.eqb_neq in Hxa, Hxb.
    destruct Ha as [Ha|Ha]; [congruence|].
    destruct Hb as [Hb|Hb]; [congruence|].
    apply IH; [assumption..|]. now injection Heq.
Qed.

Lemma first_occurrences_In (zs : list Z) (z : Z) :
  In z (first_occurrences Z.eqb zs) <-> In z zs.
Proof.
  induction zs as [|x zs IH]; simpl; [tauto|].
  rewrite filter_In, IH.
  destruct (Z.eq_dec x z) as [->|Hne]; [tauto|].
  split.
  - intros [H|[H _]]; [now left|now right].
  - intros [H|H]; [now left|]. right. split; [exact H|].
    apply negb_true_iff, Z.eqb_neq. congruence.
Qed.

Lemma first_occurrences_NoDup (zs : list Z) : NoDup (first_occurrences Z.eqb zs).
Proof.
  induction zs as [|x zs IH]; simpl; constructor.
  - rewrite filter_In. intros [_ H].
    now rewrite Z.eqb_refl in H.
  - now apply NoDup_filter.
Qed.

Lemma first_occurrences_id (zs : list Z) :
  NoDup zs -> first_occurrences Z.eqb zs = zs.
Proof.
  induction 1 as [|x zs Hx _ IH]; simpl; [reflexivity|].
  rewrite IH. f_equal.
  apply forallb_filter_id, forallb_forall.
  intros y Hy. apply negb_true_iff, Z.eqb_neq. congruence.
Qed.

(** First occurrences come in the order of their positions. *)
Lemma first_occurrences_sorted (zs : list Z) :
  StronglySorted (fun a b => position a zs < position b zs)
    (first_occurrences Z.eqb zs).
Proof.
  induction zs as [|x zs IH]; simpl first_occurrences; constructor.
  - apply StronglySorted_filter with (f := fun y => negb (y =? x)%Z) in IH.
    eapply StronglySorted_in; [exact IH|].
    intros a b Ha Hb Hlt.
    apply filter_In in Ha as [_ Ha]. apply filter_In in Hb as [_ Hb].
    apply negb_true_iff, Z.eqb_neq in Ha, Hb.
    cbv beta in Hlt.
    rewrite (position_tail x a zs Ha), (position_tail x b zs Hb). lia.
  - apply Forall_forall. intros y Hy.
    apply filter_In in Hy as [_ Hy]. apply negb_true_iff, Z.eqb_neq in Hy.
    rewrite position_head, (position_tail x y zs Hy). lia.
Qed.

Lemma index_position (zs : list Z) (z : Z) :
  In z zs -> index (map PInt zs) (PInt z) = Ok (position z zs).
Proof.
  induction zs as [|x zs IH]; intros Hin; [contradiction|].
  simpl. destruct (x =? z)%Z eqn:Heq; [reflexivity|].
  apply Z.eqb_neq in Heq. destruct Hin as [Hin|Hin]; [congruence|].
  now rewrite (IH Hin).
Qed.

Lemma int_id_key (zs : list Z) (x : pyval) (z : Z) :
  int_id x = Some z -> In z zs ->
  res_bind (getitem_str x "id") (index (map PInt zs)) = Ok (position (id_of x) zs).
Proof.
  intros Hid Hin. unfold id_of. rewrite Hid.
  unfold int_id in Hid.
  destruct (getitem_str x "id") as [[| | z' | | |]|]; try discriminate Hid.
  injection Hid as ->. cbn [res_bind]. now apply index_position.
Qed.

Lemma map_int_id (items : list pyval) (ids : list Z) :
  map int_id items = map Some ids ->
  map id_of items = ids /\ Forall (fun x => int_id x = Some (id_of x)) items.
Proof.
  revert ids. induction items as [|x items IH]; intros [|z ids] H;
    try discriminate H.
  - split; [reflexivity|constructor].
  - cbn [map] in H. injection H as Hx Hrest.
    destruct (IH ids Hrest) as [Hids Hall].
    assert (Hz : id_of x = z) by (unfold id_of; now rewrite Hx).
    split.
    + cbn [map]. now rewrite Hz, Hids.
    + constructor; [now rewrite Hz|exact Hall].
Qed.

End Order.

(** ** C1: the order of the batch lookup *)

Section LookupOrder.
Context {env : Env}.

Lemma lookup_values (urls : list str) (responses : list (list pyval)) :
  map json_response urls = map (fun items => Ok (PList items)) responses ->
  map lookup_value urls = map PList responses.
Proof.
  revert responses. induction urls as [|url urls IH]; intros [|r responses] H;
    try discriminate H; [reflexivity|].
  cbn [map] in *. injection H as Hurl Hrest.
  unfold lookup_value at 1. rewrite Hurl. now rewrite (IH responses Hrest).
Qed.

Lemma iterate_lists (responses : list (list pyval)) :
  res_map iterate (map PList responses) = Ok responses.
Proof.
  induction responses as [|r responses IH]; [reflexivity|].
  cbn [map res_map iterate res_bind]. now rewrite IH.
Qed.

Lemma strictly_by_position (zs l : list Z) :
  StronglySorted le (map (fun z => position z zs) l) ->
  NoDup l ->
  (forall z, In z l -> In z zs) ->
  StronglySorted (fun a b => position a zs < position b zs) l.
Proof.
  induction l as [|a l IH]; intros Hsorted Hnodup Hin; [constructor|].
  cbn [map] in Hsorted. apply StronglySorted_inv in Hsorted as [Hsorted Hall].
  apply NoDup_cons_iff in Hnodup as [Ha Hnodup].
  constructor.
  - apply IH; [assumption..|]. intros z Hz. apply Hin. now right.
  - apply Forall_forall. intros b Hb.
    rewrite Forall_forall in Hall.
    assert (Hle : position a zs <= position b zs)
      by (apply Hall, in_map_iff; now exists b).
    assert (Hne : position a zs <> position b zs).
    { intros Heq. apply Ha.
      rewrite (position_injective zs a b); [exact Hb| | |exact Heq].
      - apply Hin. now left.
      - apply Hin. now right. }
    lia.
Qed.

End LookupOrder.

(** C1, as stated, fails. The ids 5, 3 and 5 again are looked up; each of
    the ids 5 and 3 appears in the one chunk response, once. The result
    lists the item 5, then the item 3: two records, whose ids are not the
    three input ids. When the catalog answers with one record for each of
    the three ids instead, the result lists the item 5 twice, then the
    item 3: again not the order of the input. *)
Lemma repeated_id_is_returned_once :
  let five := Demo.item 5 "five" in
  let three := Demo.item 3 "three" in
  @json_response Demo.repeats Demo.lookup_5_3_5 = Ok (PList [three; five])
  /\ (forall z, In z [5; 3; 5]%Z -> count_occ Z.eq_dec [3; 5]%Z z = 1)
  /\ fst (@get_tracks Demo.repeats [PInt 5; PInt 3; PInt 5] Demo.w0)
     = Ok [five; three]
  /\ map int_id [five; three] <> map Some [5; 3; 5]%Z
  /\ @json_response Demo.repeats_all Demo.lookup_5_3_5
     = Ok (PList [three; five; five])
  /\ fst (@get_tracks Demo.repeats_all [PInt 5; PInt 3; PInt 5] Demo.w0)
     = Ok [five; five; three]
  /\ map int_id [five; five; three] <> map Some [5; 3; 5]%Z.
Proof.
  cbv zeta.
  split; [vm_compute; reflexivity|].
  split; [intros z [<-|[<-|[<-|[]]]]; reflexivity|].
  split; [vm_compute; reflexivity|].
  split; [discriminate|].
  split; [vm_compute; reflexivity|].
  split; [vm_compute; reflexivity|discriminate].
Qed.

(** C1, amended. The session has its credential, every chunk request
    yields a list of item records with integer ids, each requested id is
    the id of exactly one of these records, and no other record is
    returned. Then [get_tracks] returns these records, each once, in the
    order in which their ids first occur among the input ids, whatever
    the order in which the chunk requests complete and whatever the order
    of the records in each response. When no id is repeated in the input,
    the ids of the result are the input ids, in the same order. *)
Theorem get_tracks_in_input_order (env : Env) (zs : list Z) (w w0 : World)
    (responses : list (list pyval)) (item_ids : list Z) :
  ensure_credentials w = (Ok tt, w0) ->
  map json_response (format_get_tracks_urls (client_id w0) (map PInt zs))
    = map (fun items => Ok (PList items)) responses ->
  map int_id (List.concat responses) = map Some item_ids ->
  (forall z, In z zs -> count_occ Z.eq_dec item_ids z = 1) ->
  (forall z, In z item_ids -> In z zs) ->
  exists out w',
    get_tracks (map PInt zs) w = (Ok out, w')
    /\ Permutation out (List.concat responses)
    /\ map int_id out = map Some (first_occurrences Z.eqb zs)
    /\ (NoDup zs -> map int_id out = map Some zs).
Proof.
  intros Hcred Hresponses Hids Honce Honly.
  destruct (get_tracks_with_credential (map PInt zs) w w0 Hcred) as [w' Hrun].
  rewrite (lookup_values _ _ Hresponses), iterate_lists in Hrun.
  cbn [res_bind] in Hrun.
  set (items := List.concat responses) in *.
  destruct (map_int_id items item_ids Hids) as [Hid_of Hall].
  assert (Hkey : Forall (fun x =>
                    res_bind (getitem_str x "id") (index (map PInt zs))
                    = Ok (position (id_of x) zs)) items).
  { rewrite Forall_forall in *. intros x Hx.
    apply (int_id_key zs x (id_of x) (Hall x Hx)).
    apply Honly. rewrite <- Hid_of. now apply in_map. }
  destruct (sorted_total (fun x => position (id_of x) zs) _ items Hkey)
    as (out & Hsorted & Hperm & Hincreasing).
  rewrite Hsorted in Hrun.
  assert (Hperm_ids : Permutation (map id_of out) item_ids)
    by (rewrite <- Hid_of; now apply Permutation_map).
  assert (Hnodup : NoDup item_ids).
  { apply (NoDup_count_occ' Z.eq_dec). intros z Hz. now apply Honce, Honly. }
  assert (Hsame : Permutation item_ids (first_occurrences Z.eqb zs)).
  { apply NoDup_Permutation; [exact Hnodup|apply first_occurrences_NoDup|].
    intros z. rewrite first_occurrences_In. split; [apply Honly|].
    intros Hz. apply (count_occ_In Z.eq_dec). rewrite (Honce z Hz). lia. }
  assert (Hout : map id_of out = first_occurrences Z.eqb zs).
  { apply (strictly_sorted_unique (fun z => position z zs)).
    - apply strictly_by_position.
      + now rewrite map_map.
      + eapply Permutation_NoDup; [symmetry; exact Hperm_ids|exact Hnodup].
      + intros z Hz. apply Honly.
        eapply Permutation_in; [exact Hperm_ids|exact Hz].
    - apply first_occurrences_sorted.
    - now rewrite Hperm_ids. }
  assert (Hint : map int_id out = map Some (map id_of out)).
  { rewrite map_map. apply map_ext_in. intros x Hx.
    assert (Hall' : Forall (fun x => int_id x = Some (id_of x)) out)
      by (eapply Permutation_Forall; [symmetry; exact Hperm|exact Hall]).
    rewrite Forall_forall in Hall'. now apply Hall'. }
  exists out, w'. split; [exact Hrun|]. split; [exact Hperm|].
  rewrite Hint, Hout. split; [reflexivity|].
  intros Hdistinct. now rewrite first_occurrences_id.
Qed.

Lemma get_tracks_in_input_order_witness :
  let one := Demo.item 1 "one" in
  let three := Demo.item 3 "three" in
  let five := Demo.item 5 "five" in
  let nine := Demo.item 9 "nine" in
  @format_get_tracks_urls Demo.pairs (client_id Demo.w0)
    (map PInt [5; 3; 9; 1]%Z)
  = ["https://api-v2.soundcloud.com/tracks?ids=5,3&client_id=abc123";
     "https://api-v2.soundcloud.com/tracks?ids=9,1&client_id=abc123"]
  /\ exists out w',
       @get_tracks Demo.pairs (map PInt [5; 3; 9; 1]%Z) Demo.w0 = (Ok out, w')
       /\ Permutation out [three; five; one; nine]
       /\ map int_id out = map Some [5; 3; 9; 1]%Z.
Proof.
  cbv zeta. split; [vm_compute; reflexivity|].
  assert (Honce : forall z, In z [5; 3; 9; 1]%Z ->
                            count_occ Z.eq_dec [3; 5; 1; 9]%Z z = 1)
    by (intros z [<-|[<-|[<-|[<-|[]]]]]; reflexivity).
  assert (Honly : forall z, In z [3; 5; 1; 9]%Z -> In z [5; 3; 9; 1]%Z)
    by (intros z [<-|[<-|[<-|[<-|[]]]]]; simpl; tauto).
  destruct (get_tracks_in_input_order Demo.pairs [5; 3; 9; 1]%Z Demo.w0 Demo.w0
              [[Demo.item 3 "three"; Demo.item 5 "five"];
               [Demo.item 1 "one"; Demo.item 9 "nine"]]
              [3; 5; 1; 9]%Z eq_refl eq_refl eq_refl Honce Honly)
    as (out & w' & Hrun & Hperm & Hfirst & Hdistinct).
  exists out, w'. split; [exact Hrun|]. split; [exact Hperm|].
  apply Hdistinct.
  repeat constructor; simpl; intuition discriminate.
Defined.

(** * Further properties of the module *)

(** ** Credentials *)

(** After [if not self.client_id: await self.get_credentials()] has
    passed, the session has a client id, never [None]; when that id is
    not the empty string, the same statement later on does nothing:
    discovery runs once. *)
Theorem credentials_found_once (env env' : Env) (w w' : World) :
  @ensure_credentials env w = (Ok tt, w') ->
  exists s,
    client_id w' = Some s
    /\ (s <> EmptyString -> @ensure_credentials env' w' = (Ok tt, w')).
Proof.
  intros Hrun.
  assert (Hsome : exists s, client_id w' = Some s).
  { unfold ensure_credentials, bind, get_client_id in Hrun.
    destruct (no_client_id (client_id w)) eqn:Hheld.
    - unfold get_credentials, bind in Hrun.
      destruct (fetch_soundcloud_client_id w) as [[found|e] w1];
        [|discriminate Hrun].
      unfold set_client_id in Hrun.
      destruct found as [s|]; [|discriminate Hrun].
      injection Hrun as <-. now exists s.
    - injection Hrun as <-. unfold no_client_id in Hheld.
      destruct (client_id w) as [s|]; [now exists s|discriminate Hheld]. }
  destruct Hsome as [s Hs]. exists s. split; [exact Hs|].
  intros Hne. apply ensure_credentials_held. rewrite Hs. simpl.
  now apply String.eqb_neq.
Qed.

Lemma credentials_found_once_witness :
  let w' :=
    mkWorld
      [Request "https://soundcloud.com/mt-marcy/cold-nights";
       Request Demo.script_0; Request Demo.script_1]
      (Some "abc123") in
  @ensure_credentials Demo.whole Demo.fresh = (Ok tt, w')
  /\ exists s,
       client_id w' = Some s
       /\ (s <> EmptyString -> @ensure_credentials Demo.down w' = (Ok tt, w')).
Proof.
  cbv zeta.
  assert (H : @ensure_credentials Demo.whole Demo.fresh
              = (Ok tt,
                 mkWorld
                   [Request "https://soundcloud.com/mt-marcy/cold-nights";
                    Request Demo.script_0; Request Demo.script_1]
                   (Some "abc123")))
    by (vm_compute; reflexivity).
  split; [exact H|].
  exact (credentials_found_once Demo.whole Demo.down _ _ H).
Defined.

(** When discovery finds no token, [get_credentials] raises a
    [RuntimeError]; the assignment comes before the test, so the client
    id that the session held is replaced by [None]. *)
Theorem get_credentials_without_token (env : Env) (w w' : World) :
  fetch_soundcloud_client_id w = (Ok None, w') ->
  exists msg,
    get_credentials w
    = (Raise (mkExn RuntimeError msg), mkWorld (trace w') None).
Proof.
  intros Hfetch. unfold get_credentials, bind. rewrite Hfetch.
  unfold set_client_id, raise. eexists. reflexivity.
Qed.

Lemma get_credentials_without_token_witness :
  let w' :=
    mkWorld
      [Request "https://soundcloud.com/mt-marcy/cold-nights";
       Request Demo.script_0]
      (Some "abc123") in
  client_id Demo.w0 = Some "abc123"
  /\ @fetch_soundcloud_client_id Demo.tokenless Demo.w0 = (Ok None, w')
  /\ exists msg,
       @get_credentials Demo.tokenless Demo.w0
       = (Raise (mkExn RuntimeError msg), mkWorld (trace w') None).
Proof.
  cbv zeta.
  assert (H : @fetch_soundcloud_client_id Demo.tokenless Demo.w0
              = (Ok None,
                 mkWorld
                   [Request "https://soundcloud.com/mt-marcy/cold-nights";
                    Request Demo.script_0]
                   (Some "abc123")))
    by (vm_compute; reflexivity).
  split; [reflexivity|]. split; [exact H|].
  exact (get_credentials_without_token Demo.tokenless _ _ H).
Defined.

(** A catalog page that lists no script: discovery makes the one request
    for the page and looks for the token in the empty text. *)
Theorem discovery_without_scripts (env : Env) (w : World) (url : str)
    (page_text : bytes) (page : str) :
  random_choice SCRAPE_URLS = Ok url ->
  http_get url = Ok page_text ->
  decode page_text = Ok page ->
  find_script_urls page = [] ->
  fetch_soundcloud_client_id w
  = (Ok (find_client_id EmptyString), emit [Request url] w).
Proof.
  intros Hchoice Hpage Hdecode Hnone.
  unfold fetch_soundcloud_client_id, bind at 1, lift at 1. rewrite Hchoice.
  unfold bind at 1, get_resource, await, settled. simpl. rewrite Hpage. simpl.
  unfold bind at 1, lift at 1. rewrite Hdecode, Hnone.
  unfold bind at 1. rewrite (gather_get_resource_ok [] [] _ eq_refl).
  simpl. now rewrite emit_nil.
Qed.

Lemma discovery_without_scripts_witness :
  @find_script_urls Demo.bare "<html>client_id:abc123</html>" = []
  /\ @fetch_soundcloud_client_id Demo.bare Demo.fresh
     = (Ok None,
        emit [Request "https://soundcloud.com/mt-marcy/cold-nights"] Demo.fresh).
Proof.
  split; [reflexivity|].
  exact (discovery_without_scripts Demo.bare Demo.fresh
           "https://soundcloud.com/mt-marcy/cold-nights"
           (Demo.b "<html>client_id:abc123</html>")
           "<html>client_id:abc123</html>" eq_refl eq_refl eq_refl eq_refl).
Defined.

(** ** The batch lookup, whatever the catalog returns *)

Section LookupResults.
Context {env : Env}.

Lemma res_map_ok_inv {A B} (f : A -> res B) (l : list A) (l' : list B) :
  res_map f l = Ok l' -> Forall2 (fun x y => f x = Ok y) l l'.
Proof.
  revert l'. induction l as [|x l IH]; intros l' H.
  - simpl in H. injection H as <-. constructor.
  - simpl in H. destruct (f x) as [y|e] eqn:Hx; [|discriminate H].
    cbn [res_bind] in H.
    destruct (res_map f l) as [ys|e]; [|discriminate H].
    cbn [res_bind] in H. injection H as <-.
    constructor; [exact Hx|now apply IH].
Qed.

Lemma res_map_raises {A B} (f : A -> res B) (l : list A) (x : A) (e : exn) :
  In x l -> f x = Raise e ->
  exists e' y, res_map f l = Raise e' /\ In y l /\ f y = Raise e'.
Proof.
  intros Hin Hfail. induction l as [|a l IH]; [contradiction|].
  cbn [res_map]. destruct (f a) as [b|e'] eqn:Ha.
  - destruct Hin as [->|Hin]; [congruence|].
    destruct (IH Hin) as (e' & y & -> & Hy & Hfy).
    exists e', y. repeat split; [now right|exact Hfy].
  - exists e', a. repeat split; [now left|exact Ha].
Qed.

Lemma keys_of_sorted {A} (l : list (nat * A)) :
  StronglySorted key_le l -> StronglySorted le (map fst l).
Proof.
  induction 1 as [|p l _ IH Hall]; [constructor|].
  cbn [map]. constructor; [exact IH|].
  apply Forall_forall. intros k Hk.
  apply in_map_iff in Hk as (q & <- & Hq).
  rewrite Forall_forall in Hall. exact (Hall q Hq).
Qed.

(** What [sorted] returns when it returns: the same elements, their keys
    in increasing order. *)
Lemma sorted_ok_inv {A} (key : A -> res nat) (l out : list A) :
  sorted key l = Ok out ->
  Permutation out l
  /\ exists keys, map key out = map Ok keys /\ StronglySorted le keys.
Proof.
  unfold sorted. intros H.
  destruct (res_map _ l) as [kl|e] eqn:Hkl; [|discriminate H].
  cbn [res_bind] in H. injection H as <-.
  apply res_map_ok_inv in Hkl.
  assert (Hsnd : map snd kl = l).
  { induction Hkl as [|x p l kl Hx _ IH]; [reflexivity|].
    destruct (key x); [|discriminate Hx]. injection Hx as <-.
    cbn [map snd]. now rewrite IH. }
  assert (Hkeys : Forall (fun p => key (snd p) = Ok (fst p)) kl).
  { clear Hsnd. induction Hkl as [|x p l kl Hx _ IH]; constructor; [|exact IH].
    destruct (key x) as [k|] eqn:Hk; [|discriminate Hx]. injection Hx as <-.
    exact Hk. }
  pose proof (sort_by_key_perm kl) as Hperm.
  split.
  - rewrite <- Hsnd. now apply Permutation_map.
  - exists (map fst (sort_by_key kl)). split.
    + rewrite !map_map. apply map_ext_in. intros p Hp.
      assert (Hall : Forall (fun p => key (snd p) = Ok (fst p)) (sort_by_key kl))
        by (eapply Permutation_Forall; [symmetry; exact Hperm|exact Hkeys]).
      rewrite Forall_forall in Hall. now apply Hall.
    + apply keys_of_sorted, sort_by_key_sorted.
Qed.

Lemma index_absent (l : list pyval) (v : pyval) :
  existsb (fun x => py_eqb x v) l = false ->
  index l v = Raise (mkExn ValueError "tuple.index(x): x not in tuple").
Proof.
  induction l as [|x l IH]; intros H; [reflexivity|].
  cbn [existsb] in H. apply orb_false_iff in H as [Hx Hl].
  simpl. rewrite Hx, (IH Hl). reflexivity.
Qed.

Lemma index_fails_with_ValueError (l : list pyval) (v : pyval) (e : exn) :
  index l v = Raise e -> e_class e = ValueError.
Proof.
  induction l as [|x l IH]; simpl; intros H.
  - now injection H as <-.
  - destruct (py_eqb x v); [discriminate H|].
    destruct (index l v) as [i|e']; [discriminate H|].
    cbn [res_bind] in H. injection H as <-. now apply IH.
Qed.

End LookupResults.

(** When [get_tracks] returns, it returns every record of every chunk
    response, each once: none is dropped and none is added, so that an id
    without a record simply has no place in the result. The records come
    in the order of the positions that [track_ids.index] gives to their
    ids; in particular the id of every record is one of the ids asked
    for. *)
Theorem get_tracks_returns_every_record (env : Env) (track_ids : list pyval)
    (w w0 w' : World) (responses : list (list pyval)) (out : list pyval) :
  ensure_credentials w = (Ok tt, w0) ->
  map json_response (format_get_tracks_urls (client_id w0) track_ids)
    = map (fun items => Ok (PList items)) responses ->
  get_tracks track_ids w = (Ok out, w') ->
  Permutation out (List.concat responses)
  /\ exists positions,
       map (fun x => res_bind (getitem_str x "id") (index track_ids)) out
       = map Ok positions
       /\ StronglySorted le positions.
Proof.
  intros Hcred Hresponses Hrun.
  destruct (get_tracks_with_credential track_ids w w0 Hcred) as [w'' Heq].
  rewrite Heq, (lookup_values _ _ Hresponses), iterate_lists in Hrun.
  cbn [res_bind] in Hrun.
  destruct (sorted _ (List.concat responses)) as [out'|e] eqn:Hsorted;
    [|discriminate Hrun].
  injection Hrun as <- _.
  exact (sorted_ok_inv _ _ _ Hsorted).
Qed.

Lemma get_tracks_returns_every_record_witness :
  let three := Demo.item 3 "three" in
  let five := Demo.item 5 "five" in
  @get_tracks Demo.up [PInt 5; PInt 3] Demo.w0 = (Ok [five; three], Demo.after_lookup)
  /\ Permutation [five; three] [three; five]
  /\ exists positions,
       map (fun x => res_bind (getitem_str x "id") (index [PInt 5; PInt 3]))
         [five; three]
       = map Ok positions
       /\ StronglySorted le positions.
Proof.
  cbv zeta.
  assert (Hrun : @get_tracks Demo.up [PInt 5; PInt 3] Demo.w0
                 = (Ok [Demo.item 5 "five"; Demo.item 3 "three"], Demo.after_lookup))
    by (vm_compute; reflexivity).
  split; [exact Hrun|].
  exact (get_tracks_returns_every_record Demo.up [PInt 5; PInt 3]
           Demo.w0 Demo.w0 _
           [[Demo.item 3 "three"; Demo.item 5 "five"]] _
           eq_refl eq_refl Hrun).
Defined.

(** A record whose id is none of the ids asked for makes [get_tracks]
    fail: when every record returned has an id, the call raises the
    [ValueError] of [track_ids.index] and returns no list. *)
Theorem get_tracks_rejects_other_records (env : Env) (track_ids : list pyval)
    (w w0 : World) (responses : list (list pyval)) (x v : pyval) :
  ensure_credentials w = (Ok tt, w0) ->
  map json_response (format_get_tracks_urls (client_id w0) track_ids)
    = map (fun items => Ok (PList items)) responses ->
  Forall (fun y => exists u, getitem_str y "id" = Ok u) (List.concat responses) ->
  In x (List.concat responses) ->
  getitem_str x "id" = Ok v ->
  existsb (fun i => py_eqb i v) track_ids = false ->
  exists msg w', get_tracks track_ids w = (Raise (mkExn ValueError msg), w').
Proof.
  intros Hcred Hresponses Hids Hin Hx Hother.
  destruct (get_tracks_with_credential track_ids w w0 Hcred) as [w' ->].
  rewrite (lookup_values _ _ Hresponses), iterate_lists.
  cbn [res_bind]. unfold sorted.
  set (keyed := fun y => res_bind (res_bind (getitem_str y "id") (index track_ids))
                           (fun k => Ok (k, y))).
  assert (Hfail : keyed x = Raise (mkExn ValueError "tuple.index(x): x not in tuple")).
  { unfold keyed. rewrite Hx. cbn [res_bind]. now rewrite (index_absent _ _ Hother). }
  destruct (res_map_raises keyed _ x _ Hin Hfail) as (e' & y & -> & Hy & Hfy).
  cbn [res_bind].
  assert (Hclass : e_class e' = ValueError).
  { rewrite Forall_forall in Hids. destruct (Hids y Hy) as [u Hu].
    unfold keyed in Hfy. rewrite Hu in Hfy. cbn [res_bind] in Hfy.
    destruct (index track_ids u) as [i|e''] eqn:Hindex; [discriminate Hfy|].
    cbn [res_bind] in Hfy. injection Hfy as <-.
    exact (index_fails_with_ValueError _ _ _ Hindex). }
  destruct e' as [c msg]. simpl in Hclass. subst c.
  exists msg, w'. reflexivity.
Qed.

Lemma get_tracks_rejects_other_records_witness :
  @json_response Demo.stray Demo.lookup_5_3
  = Ok (PList [Demo.item 3 "three"; Demo.item 8 "eight"])
  /\ exists msg w',
       @get_tracks Demo.stray [PInt 5; PInt 3] Demo.w0
       = (Raise (mkExn ValueError msg), w').
Proof.
  split; [vm_compute; reflexivity|].
  apply (get_tracks_rejects_other_records Demo.stray [PInt 5; PInt 3]
           Demo.w0 Demo.w0
           [[Demo.item 3 "three"; Demo.item 8 "eight"]]
           (Demo.item 8 "eight") (PInt 8)); try reflexivity.
  - repeat constructor; eexists; reflexivity.
  - right. left. reflexivity.
Defined.

(** In a session that holds a credential, the outcome of [get_tracks],
    list or exception, does not depend on the order in which the chunk
    requests complete. *)
Theorem get_tracks_whatever_completes_first (env : Env)
    (order : nat -> list nat) (track_ids : list pyval) (w : World) :
  no_client_id (client_id w) = false ->
  fst (@get_tracks (with_completion env order) track_ids w)
  = fst (@get_tracks env track_ids w).
Proof.
  intros Hheld.
  destruct (@get_tracks_with_credential env track_ids w w
              (@ensure_credentials_held env w Hheld)) as [w1 ->].
  destruct (@get_tracks_with_credential (with_completion env order) track_ids w w
              (@ensure_credentials_held (with_completion env order) w Hheld))
    as [w2 ->].
  reflexivity.
Qed.

Lemma get_tracks_whatever_completes_first_witness :
  no_client_id (client_id Demo.w0) = false
  /\ fst (@get_tracks (with_completion Demo.pairs Demo.in_order)
            (map PInt [5; 3; 9; 1]%Z) Demo.w0)
     = fst (@get_tracks Demo.pairs (map PInt [5; 3; 9; 1]%Z) Demo.w0).
Proof.
  split; [reflexivity|].
  exact (get_tracks_whatever_completes_first Demo.pairs Demo.in_order
           (map PInt [5; 3; 9; 1]%Z) Demo.w0 eq_refl).
Defined.

(** ** Stream reconstruction, when something is wrong *)

Section ReconstructionFailures.
Context {env : Env}.

Lemma for_each_app {S A} (l1 l2 : list A) (body : A -> M S unit) (s : S) :
  for_each (l1 ++ l2) body s
  = match for_each l1 body s with
    | (Ok _, s') => for_each l2 body s'
    | (Raise e, s') => (Raise e, s')
    end.
Proof.
  revert s. induction l1 as [|x l1 IH]; intros s; [reflexivity|].
  simpl. unfold bind.
  destruct (body x s) as [[u|e] s']; [apply IH|reflexivity].
Qed.

Lemma write_segments_prefix (self : Track) (old : bytes) (pos : nat)
    (w w1 : World) (manifest_url : str) (manifest : bytes) (urls : list str)
    (k : M (file_obj * World) unit) :
  get_stream_url self (emit [FileSeek 0] w) = (Ok (PStr manifest_url), w1) ->
  http_get manifest_url = Ok manifest ->
  segment_urls (splitlines manifest) = Ok urls ->
  forall mode, mode <> Closed ->
  (file_seek 0 ;;
   stream_url <- on_world (get_stream_url self) ;;
   track_bytes <- on_world (get_resource_at stream_url) ;;
   chunks <- lift (segment_urls (splitlines track_bytes)) ;;
   for_each chunks (fun chunk =>
     data <- on_world (get_resource chunk) ;;
     file_write data) ;;
   k) (mkFile mode old pos, w)
  = (for_each urls (fun chunk =>
       data <- on_world (get_resource chunk) ;;
       file_write data) ;;
     k) (mkFile mode old 0, emit [Request manifest_url] w1).
Proof.
  intros Hstream Hmanifest Hurls mode Hmode.
  unfold bind at 1.
  assert (Hseek : file_seek 0 (mkFile mode old pos, w)
                  = (Ok tt, (mkFile mode old 0, emit [FileSeek 0] w)))
    by (destruct mode; [reflexivity..|contradiction]).
  rewrite Hseek.
  unfold bind at 1. unfold on_world at 1. cbn [fst snd]. rewrite Hstream.
  unfold bind at 1. unfold on_world at 1, get_resource_at, get_resource,
    await, settled. cbn [fst snd ft_url ft_then get_resource_task].
  rewrite Hmanifest. cbn [fst snd].
  unfold bind at 1, lift at 1. rewrite Hurls. reflexivity.
Qed.

Lemma splitlines_from_line (cur line rest : bytes) :
  no_line_end line = true ->
  splitlines_from cur (line ++ LF :: rest)%list
  = (rev cur ++ line)%list :: splitlines_from [] rest.
Proof.
  revert cur. induction line as [|c line IH]; intros cur Hline.
  - simpl. now rewrite app_nil_r.
  - cbn [no_line_end forallb] in Hline.
    apply andb_true_iff in Hline as [Hc Hline].
    apply andb_true_iff in Hc as [Hlf Hcr].
    apply negb_true_iff in Hlf, Hcr.
    cbn [app splitlines_from]. rewrite Hlf, Hcr.
    rewrite (IH (c :: cur) Hline). cbn [rev]. now rewrite <- app_assoc.
Qed.

Lemma splitlines_join_lines (lines : list bytes) :
  forallb no_line_end lines = true ->
  splitlines (join_lines lines) = lines.
Proof.
  unfold splitlines, join_lines.
  induction lines as [|line lines IH]; intros Hlines; [reflexivity|].
  cbn [forallb] in Hlines. apply andb_true_iff in Hlines as [Hline Hlines].
  cbn [map List.concat]. rewrite <- app_assoc. cbn [app].
  rewrite (splitlines_from_line [] line _ Hline). cbn [rev app].
  now rewrite (IH Hlines).
Qed.

Lemma segment_urls_filter (lines : list bytes) :
  segment_urls lines
  = res_map decode (filter (fun line => negb (startswith HASH line)) lines).
Proof.
  induction lines as [|line lines IH]; [reflexivity|].
  cbn [segment_urls filter]. destruct (negb (startswith HASH line)).
  - cbn [res_map]. now rewrite IH.
  - exact IH.
Qed.

End ReconstructionFailures.

(** A closed sink is refused at the first [seek]: [write_mp3_to] prints
    its diagnostic, then the message of the [ValueError] of the seek, and
    raises that [ValueError] again, before any request is made; the sink
    is left as it was. *)
Theorem write_mp3_to_closed_sink (env : Env) (self : Track) (file : file_obj)
    (w : World) :
  f_mode file = Closed ->
  exists msg,
    write_mp3_to self (file, w)
    = (Raise (mkExn ValueError msg),
       (file, emit [Stderr WRONG_MODE; Stderr msg] w)).
Proof.
  intros Hmode. destruct file as [mode old pos]. simpl in Hmode. subst mode.
  exists "seek of closed file".
  unfold write_mp3_to, try_except, write_segments, bind. cbn.
  unfold emit. cbn. now rewrite <- app_assoc.
Qed.

Lemma write_mp3_to_closed_sink_witness :
  f_mode Demo.closed_file = Closed
  /\ exists msg,
       @write_mp3_to Demo.radio Demo.track_7 (Demo.closed_file, Demo.w0)
       = (Raise (mkExn ValueError msg),
          (Demo.closed_file, emit [Stderr WRONG_MODE; Stderr msg] Demo.w0)).
Proof.
  split; [reflexivity|].
  exact (write_mp3_to_closed_sink Demo.radio Demo.track_7 Demo.closed_file
           Demo.w0 eq_refl).
Defined.

(** When [get_stream_url] returns [None], or anything but a string,
    [write_mp3_to] goes on to fetch it: the [TypeError] of the fetch is
    reported with the diagnostic about the mode of the file, whatever the
    mode is, and raised again. Nothing is written. *)
Theorem write_mp3_to_without_stream (env : Env) (self : Track) (file : file_obj)
    (w w1 : World) (v : pyval) :
  f_mode file <> Closed ->
  get_stream_url self (emit [FileSeek 0] w) = (Ok v, w1) ->
  (forall url, v <> PStr url) ->
  write_mp3_to self (file, w)
  = (Raise (mkExn TypeError "Constructor parameter should be str"),
     (mkFile (f_mode file) (f_data file) 0,
      emit [Stderr WRONG_MODE; Stderr "Constructor parameter should be str"] w1)).
Proof.
  intros Hmode Hstream Hnot. destruct file as [mode old pos]. simpl in Hmode.
  unfold write_mp3_to, try_except, write_segments. unfold bind at 1 2.
  assert (Hseek : file_seek 0 (mkFile mode old pos, w)
                  = (Ok tt, (mkFile mode old 0, emit [FileSeek 0] w)))
    by (destruct mode; [reflexivity..|contradiction]).
  rewrite Hseek.
  unfold bind at 1. unfold on_world at 1. cbn [fst snd]. rewrite Hstream.
  unfold bind at 1. unfold on_world at 1, get_resource_at.
  destruct v as [| | | url | |]; try (now destruct (Hnot url));
    cbn; unfold emit; cbn; now rewrite <- app_assoc.
Qed.

Lemma write_mp3_to_without_stream_witness :
  let self := mkTrack (Demo.item 5 "five") (Some Api) in
  let w1 :=
    emit [FileSeek 0; Request (Demo.descriptor "5");
          Stderr "Stream response is empty"] Demo.w0 in
  @get_stream_url Demo.odd self (emit [FileSeek 0] Demo.w0) = (Ok PNone, w1)
  /\ @write_mp3_to Demo.odd self (Demo.old_file, Demo.w0)
     = (Raise (mkExn TypeError "Constructor parameter should be str"),
        (mkFile BinaryReadWrite (f_data Demo.old_file) 0,
         emit [Stderr WRONG_MODE; Stderr "Constructor parameter should be str"] w1)).
Proof.
  cbv zeta.
  assert (H : @get_stream_url Demo.odd (mkTrack (Demo.item 5 "five") (Some Api))
                (emit [FileSeek 0] Demo.w0)
              = (Ok PNone,
                 emit [FileSeek 0; Request (Demo.descriptor "5");
                       Stderr "Stream response is empty"] Demo.w0))
    by (vm_compute; reflexivity).
  split; [exact H|].
  apply (write_mp3_to_without_stream Demo.odd _ Demo.old_file Demo.w0 _ PNone);
    [discriminate|exact H|discriminate].
Defined.

(** When the fetch of a segment fails with an exception that is neither
    a [TypeError] nor a [ValueError], [write_mp3_to] passes it on without
    a diagnostic. The segments before it are written, the later ones are
    not requested, and the position of the sink is left after what was
    written: it is not set back to the start. *)
Theorem write_mp3_to_segment_failure (env : Env) (self : Track)
    (file : file_obj) (w w1 : World) (manifest_url : str) (manifest : bytes)
    (fetched rest : list str) (url : str) (segments : list bytes) (exc : exn) :
  f_mode file = BinaryReadWrite ->
  get_stream_url self (emit [FileSeek 0] w) = (Ok (PStr manifest_url), w1) ->
  http_get manifest_url = Ok manifest ->
  segment_urls (splitlines manifest) = Ok (fetched ++ url :: rest)%list ->
  res_map http_get fetched = Ok segments ->
  http_get url = Raise exc ->
  isinstance exc [TypeError; ValueError] = false ->
  let data := List.concat segments in
  write_mp3_to self (file, w)
  = (Raise exc,
     (mkFile BinaryReadWrite (data ++ skipn (List.length data) (f_data file))%list
        (List.length data),
      emit (Request manifest_url :: fetched_and_written fetched segments
            ++ [Request url])%list w1)).
Proof.
  intros Hmode Hstream Hmanifest Hurls Hfetched Hfail Hclass data.
  destruct file as [mode old pos]. simpl in Hmode. subst mode.
  unfold write_mp3_to, try_except. unfold bind at 1.
  unfold write_segments.
  rewrite (write_segments_prefix self old pos w w1 manifest_url manifest _
             (file_seek 0) Hstream Hmanifest Hurls BinaryReadWrite)
    by discriminate.
  unfold bind at 1. rewrite for_each_app.
  rewrite (write_loop fetched segments [] old _ Hfetched).
  cbn [for_each]. unfold bind at 1 2.
  unfold on_world, get_resource, await, settled. cbn [fst snd ft_url ft_then
    get_resource_task]. rewrite Hfail. cbn [fst snd].
  rewrite Hclass. cbn [f_data app]. rewrite !emit_emit.
  reflexivity.
Qed.

Lemma write_mp3_to_segment_failure_witness :
  @write_mp3_to Demo.radio_cut Demo.track_7 (Demo.old_file, Demo.w0)
  = (Raise (mkExn ClientError "Cannot connect to host"),
     (mkFile BinaryReadWrite (Demo.b "ID3abc6789ABCDEF") 6,
      emit [FileSeek 0; Request (Demo.descriptor "7");
            Request Demo.manifest_url;
            Request Demo.segment_0; FileWrite (Demo.b "ID3abc");
            Request Demo.segment_1] Demo.w0)).
Proof.
  exact (write_mp3_to_segment_failure Demo.radio_cut Demo.track_7 Demo.old_file
           Demo.w0 (emit [FileSeek 0; Request (Demo.descriptor "7")] Demo.w0)
           Demo.manifest_url (Demo.b Demo.manifest)
           [Demo.segment_0] [] Demo.segment_1 [Demo.b "ID3abc"]
           (mkExn ClientError "Cannot connect to host")
           eq_refl eq_refl eq_refl eq_refl eq_refl eq_refl eq_refl).
Defined.

(** With a sink opened for text, the error shows at the first write,
    that is after the manifest and the first segment have been fetched:
    the [TypeError] is reported with the diagnostic and raised again, and
    the sink holds what it held. *)
Theorem write_mp3_to_text_sink (env : Env) (self : Track) (file : file_obj)
    (w w1 : World) (manifest_url : str) (manifest : bytes) (url : str)
    (rest : list str) (data : bytes) :
  f_mode file = TextMode ->
  get_stream_url self (emit [FileSeek 0] w) = (Ok (PStr manifest_url), w1) ->
  http_get manifest_url = Ok manifest ->
  segment_urls (splitlines manifest) = Ok (url :: rest) ->
  http_get url = Ok data ->
  write_mp3_to self (file, w)
  = (Raise (mkExn TypeError "write() argument must be str, not bytes"),
     (mkFile TextMode (f_data file) 0,
      emit [Request manifest_url; Request url; Stderr WRONG_MODE;
            Stderr "write() argument must be str, not bytes"] w1)).
Proof.
  intros Hmode Hstream Hmanifest Hurls Hdata.
  destruct file as [mode old pos]. simpl in Hmode. subst mode.
  unfold write_mp3_to, try_except. unfold bind at 1.
  unfold write_segments.
  rewrite (write_segments_prefix self old pos w w1 manifest_url manifest _
             (file_seek 0) Hstream Hmanifest Hurls TextMode)
    by discriminate.
  unfold bind at 1. cbn [for_each]. unfold bind at 1 2.
  unfold on_world at 1, get_resource, await, settled. cbn [fst snd ft_url ft_then
    get_resource_task]. rewrite Hdata. cbn.
  unfold emit. cbn. now rewrite <- !app_assoc.
Qed.

Lemma write_mp3_to_text_sink_witness :
  f_mode Demo.text_file = TextMode
  /\ @write_mp3_to Demo.radio Demo.track_7 (Demo.text_file, Demo.w0)
     = (Raise (mkExn TypeError "write() argument must be str, not bytes"),
        (mkFile TextMode (Demo.b "0123") 0,
         emit [FileSeek 0; Request (Demo.descriptor "7");
               Request Demo.manifest_url; Request Demo.segment_0;
               Stderr WRONG_MODE;
               Stderr "write() argument must be str, not bytes"] Demo.w0)).
Proof.
  split; [reflexivity|].
  exact (write_mp3_to_text_sink Demo.radio Demo.track_7 Demo.text_file
           Demo.w0 (emit [FileSeek 0; Request (Demo.descriptor "7")] Demo.w0)
           Demo.manifest_url (Demo.b Demo.manifest)
           Demo.segment_0 [Demo.segment_1] (Demo.b "ID3abc")
           eq_refl eq_refl eq_refl eq_refl eq_refl).
Defined.

(** For a manifest whose lines each end with a line feed, the URLs that
    [write_mp3_to] fetches are the lines that do not start with [#],
    decoded, in the order of the manifest: an empty line counts as a URL,
    and the first line that does not decode fails the whole step. *)
Theorem segment_urls_of_lines (env : Env) (lines : list bytes) :
  forallb no_line_end lines = true ->
  segment_urls (splitlines (join_lines lines))
  = res_map decode (filter (fun line => negb (startswith HASH line)) lines).
Proof.
  intros Hlines. now rewrite (splitlines_join_lines lines Hlines), segment_urls_filter.
Qed.

Lemma segment_urls_of_lines_witness :
  join_lines Demo.manifest_lines = Demo.b Demo.manifest
  /\ @segment_urls Demo.radio (splitlines (join_lines Demo.manifest_lines))
     = Ok [Demo.segment_0; Demo.segment_1].
Proof.
  split; [vm_compute; reflexivity|].
  exact (segment_urls_of_lines Demo.radio Demo.manifest_lines eq_refl).
Defined.

(** ** The resolver *)

Section Resolver.
Context {env : Env}.

(** What [resolve] returns when it returns an object: a track made of a
    record of kind [track], or a playlist that has been completed. *)
Lemma resolve_dispatch_inv (response : pyval) (w w' : World) (obj : sc_object) :
  resolve_dispatch response w = (Ok (Some obj), w') ->
  match obj with
  | ATrack t =>
      t_client t = Some Api
      /\ exists kind,
           getitem_str (t_obj t) "kind" = Ok kind
           /\ py_eqb kind (PStr "track") = true
  | APlaylist p => ready p = true
  end.
Proof.
  unfold resolve_dispatch. destruct (negb (truthy response)); [discriminate|].
  unfold bind, lift.
  destruct (getitem_0 response) as [first|e]; [|discriminate].
  destruct (getitem_str first "kind") as [kind|e] eqn:Hkind; [|discriminate].
  destruct (py_eqb kind (PStr "track")) eqn:Htrack.
  - unfold ret. intros H. injection H as <- _. split; [reflexivity|].
    exists kind. split; assumption.
  - destruct (existsb (py_eqb kind) _); [|discriminate].
    destruct (Playlist_init first (Some Api)) as [playlist|e]; [|discriminate].
    pose proof (clean_attributes_ready playlist w) as Hready.
    destruct (clean_attributes playlist w) as [[[u|e] playlist'] w1];
      [|discriminate].
    intros H. injection H as <- _. exact Hready.
Qed.

Lemma resolve_inv (url : str) (w w' : World) (obj : sc_object) :
  resolve url w = (Ok (Some obj), w') ->
  exists response w1,
    resolve_lookup url w = (Ok response, w1)
    /\ resolve_dispatch response w1 = (Ok (Some obj), w').
Proof.
  unfold resolve, bind.
  destruct (resolve_lookup url w) as [[response|e] w1]; [|discriminate].
  intros H. now exists response, w1.
Qed.

Lemma last_segment_after_colon (prefix id : str) :
  no_colon id = true ->
  last_segment ":" (prefix ++ String ":" id) = id.
Proof.
  intros Hid. unfold no_colon in Hid. apply negb_true_iff in Hid.
  induction prefix as [|c prefix IH].
  - cbn [append last_segment]. rewrite Hid. reflexivity.
  - cbn [append last_segment].
    assert (Hcolon : existsb (Ascii.eqb ":")
                       (list_ascii_of_string (prefix ++ String ":" id)) = true).
    { clear. induction prefix as [|a prefix IH]; simpl; [reflexivity|].
      rewrite IH. apply orb_true_r. }
    now rewrite Hcolon.
Qed.

End Resolver.

(** When the lookup of the object fails, in the transport or in the
    decoding, [resolve] raises [ValueError('Could not resolve url')]: the
    exception of the failure itself only goes to stderr. *)
Theorem resolve_failed_lookup (env : Env) (url : str) (w w0 w1 : World)
    (track_id : str) (exc : exn) :
  ensure_credentials w = (Ok tt, w0) ->
  get_track_id url w0 = (Ok track_id, w1) ->
  json_response (lookup_url track_id (client_id w1)) = Raise exc ->
  resolve url w
  = (Raise (mkExn ValueError "Could not resolve url"),
     emit [Request (lookup_url track_id (client_id w1));
           Stderr (String.concat " " [class_repr (e_class exc); e_msg exc])] w1).
Proof.
  intros Hcred Hid Hfail.
  unfold resolve, bind at 1, resolve_lookup. unfold bind at 1. rewrite Hcred.
  unfold bind at 1. rewrite Hid. unfold bind at 1, get_client_id.
  fold (lookup_url track_id (client_id w1)).
  unfold get_obj_from, await, settled. cbn [ft_url ft_then get_obj_from_task].
  unfold json_response in Hfail. rewrite Hfail. reflexivity.
Qed.

Lemma resolve_failed_lookup_witness :
  let looked_up := "https://api-v2.soundcloud.com/tracks?ids=7&client_id=abc123" in
  @resolve Demo.lost Demo.song Demo.w0
  = (Raise (mkExn ValueError "Could not resolve url"),
     emit [Request Demo.song; Request looked_up;
           Stderr "<class 'aiohttp.client_exceptions.ClientError'> Cannot connect to host"]
       Demo.w0).
Proof.
  exact (resolve_failed_lookup Demo.lost Demo.song Demo.w0 Demo.w0
           (emit [Request Demo.song] Demo.w0) "7"
           (mkExn ClientError "Cannot connect to host")
           eq_refl eq_refl eq_refl).
Defined.

(** What [resolve] returns, when it returns an object, is either a track
    bound to the client and made of a record whose kind is [track], or a
    playlist on which completion has run: it is marked ready. *)
Theorem resolve_returns_track_or_ready_playlist (env : Env) (url : str)
    (w w' : World) (obj : sc_object) :
  resolve url w = (Ok (Some obj), w') ->
  match obj with
  | ATrack t =>
      t_client t = Some Api
      /\ exists kind,
           getitem_str (t_obj t) "kind" = Ok kind
           /\ py_eqb kind (PStr "track") = true
  | APlaylist p => ready p = true
  end.
Proof.
  intros Hrun.
  destruct (resolve_inv url w w' obj Hrun) as (response & w1 & _ & Hdispatch).
  exact (resolve_dispatch_inv response w1 w' obj Hdispatch).
Qed.

Lemma resolve_returns_track_or_ready_playlist_witness :
  let p :=
    mkPlaylist true
      [Obj (mkTrack (Demo.item 5 "five") (Some Api));
       Obj (mkTrack (Demo.item 3 "three") (Some Api))]
      (Some Api) in
  let w' :=
    emit [Request Demo.album;
          Request "https://api-v2.soundcloud.com/tracks?ids=77&client_id=abc123";
          Request "https://api-v2.soundcloud.com/tracks?ids=3&client_id=abc123"]
      Demo.w0 in
  @resolve Demo.library Demo.album Demo.w0 = (Ok (Some (APlaylist p)), w')
  /\ ready p = true.
Proof.
  cbv zeta.
  assert (H : @resolve Demo.library Demo.album Demo.w0
              = (Ok (Some (APlaylist
                       (mkPlaylist true
                          [Obj (mkTrack (Demo.item 5 "five") (Some Api));
                           Obj (mkTrack (Demo.item 3 "three") (Some Api))]
                          (Some Api)))),
                 emit [Request Demo.album;
                       Request "https://api-v2.soundcloud.com/tracks?ids=77&client_id=abc123";
                       Request "https://api-v2.soundcloud.com/tracks?ids=3&client_id=abc123"]
                   Demo.w0))
    by (vm_compute; reflexivity).
  split; [exact H|].
  exact (resolve_returns_track_or_ready_playlist Demo.library _ _ _ _ H).
Defined.

(** A playlist that [resolve] has returned can be iterated without
    another request, whatever the network has become: [__aiter__] yields
    its entries as they are and changes neither the playlist nor the
    session. *)
Theorem iterate_resolved_playlist (env env' : Env) (url : str)
    (w w' w'' : World) (p : Playlist) :
  @resolve env url w = (Ok (Some (APlaylist p)), w') ->
  @__aiter__ env' p w'' = (Ok (tracks p), p, w'').
Proof.
  intros Hrun.
  destruct (resolve_inv url w w' _ Hrun) as (response & w1 & _ & Hdispatch).
  pose proof (resolve_dispatch_inv response w1 w' _ Hdispatch) as Hready.
  unfold __aiter__. now rewrite (clean_attributes_when_ready p w'' Hready).
Qed.

Lemma iterate_resolved_playlist_witness :
  let five := Obj (mkTrack (Demo.item 5 "five") (Some Api)) in
  let three := Obj (mkTrack (Demo.item 3 "three") (Some Api)) in
  let p := mkPlaylist true [five; three] (Some Api) in
  fst (@resolve Demo.library Demo.album Demo.w0) = Ok (Some (APlaylist p))
  /\ @__aiter__ Demo.down p Demo.w0 = (Ok [five; three], p, Demo.w0).
Proof.
  cbv zeta.
  assert (H : @resolve Demo.library Demo.album Demo.w0
              = (Ok (Some (APlaylist
                       (mkPlaylist true
                          [Obj (mkTrack (Demo.item 5 "five") (Some Api));
                           Obj (mkTrack (Demo.item 3 "three") (Some Api))]
                          (Some Api)))),
                 emit [Request Demo.album;
                       Request "https://api-v2.soundcloud.com/tracks?ids=77&client_id=abc123";
                       Request "https://api-v2.soundcloud.com/tracks?ids=3&client_id=abc123"]
                   Demo.w0))
    by (vm_compute; reflexivity).
  split; [now rewrite H|].
  exact (iterate_resolved_playlist Demo.library Demo.down _ _ _ Demo.w0 _ H).
Defined.

(** The track id is what follows the last colon of the content of the
    [meta] tag: for a content that ends with a colon and an id without
    colons, [get_track_id] returns that id, after the one request for the
    page. *)
Theorem get_track_id_after_last_colon (env : Env) (url : str) (w : World)
    (body : bytes) (content prefix id : str) :
  http_get url = Ok body ->
  decode body = Ok content ->
  meta_content content = Ok (prefix ++ String ":" id) ->
  no_colon id = true ->
  get_track_id url w = (Ok id, emit [Request url] w).
Proof.
  intros Hget Hdecode Hmeta Hid.
  unfold get_track_id, bind, log, lift. rewrite Hget, Hdecode, Hmeta.
  unfold ret. now rewrite (last_segment_after_colon prefix id Hid).
Qed.

Lemma get_track_id_after_last_colon_witness :
  @meta_content Demo.library "soundcloud://sounds:7"
  = Ok ("soundcloud://sounds" ++ String ":" "7")
  /\ @get_track_id Demo.library Demo.song Demo.w0
     = (Ok "7", emit [Request Demo.song] Demo.w0).
Proof.
  split; [reflexivity|].
  exact (get_track_id_after_last_colon Demo.library Demo.song Demo.w0
           (Demo.b "soundcloud://sounds:7") "soundcloud://sounds:7"
           "soundcloud://sounds" "7" eq_refl eq_refl eq_refl eq_refl).
Defined.

(** Once the URL of the descriptor is known, [get_stream_url] does not
    raise, whatever the network answers; and when the descriptor is an
    object with a [url] field, that field is returned after the one
    request for the descriptor, with nothing on stderr. *)
Theorem get_stream_url_after_prog_url (env : Env) (self : Track) (w : World)
    (prog_url : str) :
  get_prog_url self (client_id w) = Ok prog_url ->
  (exists v w', get_stream_url self w = (Ok v, w'))
  /\ (forall d v,
        json_response prog_url = Ok (PDict d) ->
        dict_get "url" d = Some v ->
        get_stream_url self w = (Ok v, emit [Request prog_url] w)).
Proof.
  intros Hprog. split.
  - unfold get_stream_url, bind, get_client_id, lift at 1. rewrite Hprog.
    unfold get_obj_from, await, settled, try_except.
    cbn [ft_url ft_then get_obj_from_task].
    destruct (res_bind (http_get prog_url) json_loads) as [response|exc];
      cbn [fst snd].
    + destruct (truthy response); cbn.
      * destruct (getitem_str response "url") as [v|e]; cbn.
        -- eexists. eexists. reflexivity.
        -- rewrite issubclass_Exception. cbn. eexists. eexists. reflexivity.
      * eexists. eexists. reflexivity.
    + cbn. eexists. eexists. reflexivity.
  - intros d v Hd Hurl.
    assert (Htruthy : truthy (PDict d) = true)
      by (destruct d; [discriminate Hurl|reflexivity]).
    unfold get_stream_url, bind, get_client_id, lift at 1. rewrite Hprog.
    unfold get_obj_from, await, settled, try_except.
    cbn [ft_url ft_then get_obj_from_task].
    unfold json_response in Hd. rewrite Hd. cbn [fst snd].
    rewrite Htruthy. cbn [negb]. unfold lift. cbn [getitem_str].
    now rewrite Hurl.
Qed.

Lemma get_stream_url_after_prog_url_witness :
  @get_prog_url Demo.radio Demo.track_7 (client_id Demo.w0) = Ok (Demo.descriptor "7")
  /\ @get_stream_url Demo.radio Demo.track_7 Demo.w0
     = (Ok (PStr Demo.manifest_url), emit [Request (Demo.descriptor "7")] Demo.w0).
Proof.
  assert (Hprog : @get_prog_url Demo.radio Demo.track_7 (client_id Demo.w0)
                  = Ok (Demo.descriptor "7"))
    by (vm_compute; reflexivity).
  split; [exact Hprog|].
  exact (proj2 (get_stream_url_after_prog_url Demo.radio Demo.track_7 Demo.w0
                  _ Hprog)
           [("url", PStr Demo.manifest_url)] (PStr Demo.manifest_url)
           eq_refl eq_refl).
Defined.

(** ** Playlist completion, loop by loop *)

Section CompletionLoops.
Context {env : Env}.

(** With a client, the second loop ends normally only when it has popped
    every entry. *)
Lemma resolve_incomplete_with_client (c : client) (l : list entry) :
  forall (ids : list pyval) (objs objs' : list Track) (w w' : World)
         (f : flow) (remaining : list entry),
    resolve_incomplete (Some c) l ids objs w = (Ok f, remaining, objs', w') ->
    f = Fallthrough /\ remaining = [].
Proof.
  induction l as [|e l IH]; intros ids objs objs' w w' f remaining H.
  - simpl in H. injection H as <- <- _ _. split; reflexivity.
  - simpl in H. destruct (entry_getitem e "id") as [id|exc]; [|discriminate H].
    destruct ((_ =? _)%nat || _).
    + destruct (get_tracks (ids ++ [id])%list w) as [[new_tracks|exc] w1];
        [|discriminate H].
      exact (IH _ _ _ _ _ _ _ H).
    + exact (IH _ _ _ _ _ _ _ H).
Qed.

Lemma append_missing_objs (objs : list Track) (acc : list entry) :
  forallb is_obj acc = true -> forallb is_obj (append_missing objs acc) = true.
Proof.
  revert acc. induction objs as [|t objs IH]; intros acc Hacc; [exact Hacc|].
  simpl. destruct (negb (track_in t acc)); [|now apply IH].
  apply IH. rewrite forallb_app, Hacc. reflexivity.
Qed.

Lemma ForallOrdPairs_snoc {A} (R : A -> A -> Prop) (l : list A) (x : A) :
  ForallOrdPairs R l -> Forall (fun y => R y x) l ->
  ForallOrdPairs R (l ++ [x]).
Proof.
  induction 1 as [|a l Ha Hl IH]; intros Hx.
  - repeat constructor.
  - apply Forall_cons_iff in Hx as [Hax Hx].
    cbn [app]. constructor; [|now apply IH].
    apply Forall_app. split; [exact Ha|now constructor].
Qed.

Lemma append_missing_not_repeated (objs : list Track) (acc : list entry) :
  ForallOrdPairs not_repeated acc ->
  ForallOrdPairs not_repeated (append_missing objs acc).
Proof.
  revert acc. induction objs as [|t objs IH]; intros acc Hacc; [exact Hacc|].
  simpl. destruct (track_in t acc) eqn:Hin; cbn [negb]; [now apply IH|].
  apply IH, ForallOrdPairs_snoc; [exact Hacc|].
  apply Forall_forall. intros e He. unfold track_in in Hin.
  destruct e as [obj|t']; [exact I|]. cbn [not_repeated].
  destruct (track_eqb t' t) eqn:Heq; [|reflexivity].
  assert (existsb (fun e => match e with
                            | Raw _ => false
                            | Obj t0 => track_eqb t0 t
                            end) acc = true)
    by (apply existsb_exists; exists (Obj t'); now split).
  congruence.
Qed.

(** The first loop pops every entry of a list of records with a title,
    whatever the client. *)
Lemma pop_completed_all (c : option client) (l : list entry) (objs : list Track) :
  forallb has_title l = true ->
  exists objs', pop_completed c l objs = (Ok tt, [], objs').
Proof.
  revert objs. induction l as [|e l IH]; intros objs Hall.
  - now exists objs.
  - cbn [forallb] in Hall. apply andb_true_iff in Hall as [He Hl].
    destruct e as [[| | | | |d]|t]; simpl in He; try discriminate He.
    simpl. destruct (dict_get "title" d); [|discriminate He].
    apply IH, Hl.
Qed.

(** The second loop, from an empty batch or from a batch under way: the
    entries of a batch are popped and their ids are looked up together. *)
Lemma resolve_incomplete_batch (c : client) (batch : list entry) :
  forall (acc ids : list pyval) (rest : list entry) (objs : list Track)
         (w : World),
    res_map (fun e => entry_getitem e "id") batch = Ok ids ->
    batch <> [] ->
    List.length acc + List.length batch <= RESOLVE_THRESHOLD ->
    List.length acc + List.length batch = RESOLVE_THRESHOLD \/ rest = [] ->
    resolve_incomplete (Some c) (batch ++ rest) acc objs w
    = match get_tracks (acc ++ ids)%list w with
      | (Raise exc, w') => (Raise exc, rest, objs, w')
      | (Ok new_tracks, w') =>
          resolve_incomplete (Some c) rest []
            (objs ++ map (fun t => mkTrack t (Some c)) new_tracks)%list w'
      end.
Proof.
  induction batch as [|e batch IH]; intros acc ids rest objs w Hids Hne Hle Hfull;
    [congruence|].
  cbn [res_map] in Hids.
  destruct (entry_getitem e "id") as [id|exc] eqn:He; [|discriminate Hids].
  cbn [res_bind] in Hids.
  destruct (res_map _ batch) as [ids'|exc] eqn:Hbatch; [|discriminate Hids].
  cbn [res_bind] in Hids. injection Hids as <-.
  cbn [app resolve_incomplete]. rewrite He.
  cbn [List.length] in Hle, Hfull.
  destruct batch as [|e' batch].
  - cbn [res_map] in Hbatch. injection Hbatch as <-. cbn [app].
    assert (Hcond : (List.length (acc ++ [id])%list =? RESOLVE_THRESHOLD)%nat
                    || match rest with [] => true | _ :: _ => false end = true).
    { rewrite length_app. cbn [List.length] in *. unfold RESOLVE_THRESHOLD in *.
      destruct Hfull as [Hfull| ->]; [|apply orb_true_r].
      apply orb_true_iff. left. apply Nat.eqb_eq. lia. }
    rewrite Hcond. reflexivity.
  - assert (Hcond : (List.length (acc ++ [id])%list =? RESOLVE_THRESHOLD)%nat
                    || match ((e' :: batch) ++ rest)%list with
                       | [] => true
                       | _ :: _ => false
                       end = false).
    { rewrite length_app. cbn [List.length app] in *.
      unfold RESOLVE_THRESHOLD in *.
      apply orb_false_iff. split; [|reflexivity]. apply Nat.eqb_neq. lia. }
    rewrite Hcond.
    rewrite (IH (acc ++ [id])%list ids' rest objs w eq_refl);
      [now rewrite <- app_assoc|discriminate| |];
      rewrite length_app; cbn [List.length] in *;
      unfold RESOLVE_THRESHOLD in *; [lia|].
    destruct Hfull as [Hfull|Hrest]; [left; lia|now right].
Qed.

End CompletionLoops.

(** After [clean_attributes] has succeeded on a playlist that has a
    client, every entry of the playlist is a track object: no decoded
    record and no bare id is left. *)
Theorem complete_leaves_track_objects (env : Env) (self self' : Playlist)
    (c : client) (w w' : World) :
  ready self = false ->
  p_client self = Some c ->
  clean_attributes self w = (Ok tt, self', w') ->
  forallb is_obj (tracks self') = true.
Proof.
  intros Hready Hclient Hrun. unfold clean_attributes in Hrun.
  rewrite Hready, Hclient in Hrun.
  destruct (pop_completed (Some c) (tracks self) []) as [[[u|exc] remaining] objs];
    [|discriminate Hrun].
  destruct (resolve_incomplete (Some c) remaining [] objs w)
    as [[[[f|exc] remaining'] objs'] w1] eqn:Hloop; [|discriminate Hrun].
  destruct (resolve_incomplete_with_client c _ _ _ _ _ _ _ _ Hloop) as [-> ->].
  injection Hrun as <- _. cbn [tracks].
  now apply append_missing_objs.
Qed.

Lemma complete_leaves_track_objects_witness :
  @clean_attributes Demo.up Demo.two_stubs Demo.w0
  = (Ok tt, Demo.two_tracks, Demo.after_lookup)
  /\ forallb is_obj (tracks Demo.two_tracks) = true.
Proof.
  assert (H : @clean_attributes Demo.up Demo.two_stubs Demo.w0
              = (Ok tt, Demo.two_tracks, Demo.after_lookup))
    by (vm_compute; reflexivity).
  split; [exact H|].
  exact (complete_leaves_track_objects Demo.up Demo.two_stubs Demo.two_tracks
           Api Demo.w0 Demo.after_lookup eq_refl eq_refl H).
Defined.

(** After [clean_attributes] has succeeded on a playlist that has a
    client, no track object of the playlist is equal to one that comes
    before it: a track that compares equal to an earlier one is left
    out. *)
Theorem complete_appends_no_duplicate (env : Env) (self self' : Playlist)
    (c : client) (w w' : World) :
  ready self = false ->
  p_client self = Some c ->
  clean_attributes self w = (Ok tt, self', w') ->
  ForallOrdPairs not_repeated (tracks self').
Proof.
  intros Hready Hclient Hrun. unfold clean_attributes in Hrun.
  rewrite Hready, Hclient in Hrun.
  destruct (pop_completed (Some c) (tracks self) []) as [[[u|exc] remaining] objs];
    [|discriminate Hrun].
  destruct (resolve_incomplete (Some c) remaining [] objs w)
    as [[[[f|exc] remaining'] objs'] w1] eqn:Hloop; [|discriminate Hrun].
  destruct (resolve_incomplete_with_client c _ _ _ _ _ _ _ _ Hloop) as [-> ->].
  injection Hrun as <- _. cbn [tracks].
  apply append_missing_not_repeated. constructor.
Qed.

Lemma complete_appends_no_duplicate_witness :
  let five := Obj (mkTrack (Demo.item 5 "five") (Some Api)) in
  let three := Obj (mkTrack (Demo.item 3 "three") (Some Api)) in
  fst (@clean_attributes Demo.library Demo.twice_five Demo.w0)
  = (Ok tt, mkPlaylist true [five; three] (Some Api))
  /\ ForallOrdPairs (@not_repeated Demo.library) [five; three].
Proof.
  cbv zeta.
  assert (H : @clean_attributes Demo.library Demo.twice_five Demo.w0
              = (Ok tt,
                 mkPlaylist true
                   [Obj (mkTrack (Demo.item 5 "five") (Some Api));
                    Obj (mkTrack (Demo.item 3 "three") (Some Api))]
                   (Some Api),
                 emit [Request "https://api-v2.soundcloud.com/tracks?ids=3&client_id=abc123"]
                   Demo.w0))
    by (vm_compute; reflexivity).
  split; [now rewrite H|].
  exact (complete_appends_no_duplicate Demo.library Demo.twice_five _ Api
           Demo.w0 _ eq_refl eq_refl H).
Defined.

(** The second loop of [clean_attributes] looks the ids up in batches:
    the first [RESOLVE_THRESHOLD] entries, or all of them when fewer are
    left, are popped, and their ids are passed in order to one call of
    [get_tracks]. When the call fails, the popped entries are gone and
    the others stay in the playlist; otherwise the loop goes on with the
    others and an empty batch. *)
Theorem lookups_in_batches (env : Env) (c : client) (batch rest : list entry)
    (ids : list pyval) (objs : list Track) (w : World) :
  res_map (fun e => entry_getitem e "id") batch = Ok ids ->
  batch <> [] ->
  List.length batch <= RESOLVE_THRESHOLD ->
  List.length batch = RESOLVE_THRESHOLD \/ rest = [] ->
  resolve_incomplete (Some c) (batch ++ rest) [] objs w
  = match get_tracks ids w with
    | (Raise exc, w') => (Raise exc, rest, objs, w')
    | (Ok new_tracks, w') =>
        resolve_incomplete (Some c) rest []
          (objs ++ map (fun t => mkTrack t (Some c)) new_tracks)%list w'
    end.
Proof.
  intros Hids Hne Hle Hfull.
  exact (resolve_incomplete_batch c batch [] ids rest objs w Hids Hne Hle Hfull).
Qed.

Lemma lookups_in_batches_witness :
  let batch := [Raw (Demo.stub 5); Raw (Demo.stub 3)] in
  @resolve_incomplete Demo.up (Some Api) batch [] [] Demo.w0
  = match @get_tracks Demo.up [PInt 5; PInt 3] Demo.w0 with
    | (Raise exc, w') => (Raise exc, [], [], w')
    | (Ok new_tracks, w') =>
        @resolve_incomplete Demo.up (Some Api) [] []
          (map (fun t => mkTrack t (Some Api)) new_tracks) w'
    end.
Proof.
  cbv zeta.
  apply (lookups_in_batches Demo.up Api
           [Raw (Demo.stub 5); Raw (Demo.stub 3)] [] [PInt 5; PInt 3] [] Demo.w0).
  - reflexivity.
  - discriminate.
  - unfold RESOLVE_THRESHOLD. simpl. lia.
  - now right.
Defined.

(** For a playlist that has a client and whose entries all are records
    with a title, [clean_attributes] makes no request: whatever its
    outcome, the session is as it was, and the playlist is left marked
    ready. *)
Theorem complete_materialised_playlist (env : Env) (self self' : Playlist)
    (c : client) (w w' : World) (r : res unit) :
  ready self = false ->
  p_client self = Some c ->
  forallb has_title (tracks self) = true ->
  clean_attributes self w = (r, self', w') ->
  w' = w /\ ready self' = true.
Proof.
  intros Hready Hclient Hall Hrun. unfold clean_attributes in Hrun.
  rewrite Hready in Hrun.
  destruct (pop_completed_all (p_client self) (tracks self) [] Hall)
    as [objs Hpop].
  rewrite Hpop in Hrun. cbn [resolve_incomplete] in Hrun.
  injection Hrun as _ <- <-. split; reflexivity.
Qed.

Lemma complete_materialised_playlist_witness :
  ready Demo.titled = false
  /\ p_client Demo.titled = Some Api
  /\ forallb has_title (tracks Demo.titled) = true
  /\ snd (@clean_attributes Demo.down Demo.titled Demo.w0) = Demo.w0
  /\ ready (snd (fst (@clean_attributes Demo.down Demo.titled Demo.w0))) = true.
Proof.
  split; [reflexivity|]. split; [reflexivity|]. split; [reflexivity|].
  destruct (@clean_attributes Demo.down Demo.titled Demo.w0)
    as [[r self'] w'] eqn:Hrun.
  exact (complete_materialised_playlist Demo.down Demo.titled self' Api
           Demo.w0 w' r eq_refl eq_refl eq_refl Hrun).
Defined.

(** ** Edges of the batch lookup and of the completion *)

Section LookupEdges.
Context {env : Env}.

Lemma completion_order_0 : completion_order 0 = [].
Proof.
  unfold completion_order.
  assert (Hnone : forall l, filter (fun i => (i <? 0)%nat) l = [])
    by (induction l as [|i l IH]; [reflexivity|exact IH]).
  now rewrite Hnone.
Qed.

Lemma gather_nothing {A} (w : World) :
  gather (@nil (fetch_task A)) w = (Ok [], w).
Proof.
  unfold gather. cbn [List.length map]. rewrite completion_order_0.
  cbn [settle res_map]. now rewrite emit_nil.
Qed.

End LookupEdges.

(** When there is no chunk to request, as for an empty list of ids,
    [get_tracks] returns the empty list without a request. *)
Theorem get_tracks_nothing_to_look_up (env : Env) (track_ids : list pyval)
    (w w0 : World) :
  ensure_credentials w = (Ok tt, w0) ->
  format_get_tracks_urls (client_id w0) track_ids = [] ->
  get_tracks track_ids w = (Ok [], w0).
Proof.
  intros Hcred Hnone. unfold get_tracks. unfold bind at 1. rewrite Hcred.
  unfold bind at 1, get_client_id. rewrite Hnone. cbn [map].
  unfold bind at 1. rewrite gather_nothing. reflexivity.
Qed.

Lemma get_tracks_nothing_to_look_up_witness :
  @format_get_tracks_urls Demo.down (client_id Demo.w0) [] = []
  /\ @get_tracks Demo.down [] Demo.w0 = (Ok [], Demo.w0).
Proof.
  split; [reflexivity|].
  exact (get_tracks_nothing_to_look_up Demo.down [] Demo.w0 Demo.w0
           eq_refl eq_refl).
Defined.

(** When the response to the one chunk request is a JSON object rather
    than a list, as when the catalog describes an error, [get_tracks]
    takes the keys of the object for records and raises a [TypeError]. *)
Theorem get_tracks_object_response (env : Env) (track_ids : list pyval)
    (w w0 : World) (url : str) (k : str) (v : pyval) (d : list (str * pyval)) :
  ensure_credentials w = (Ok tt, w0) ->
  format_get_tracks_urls (client_id w0) track_ids = [url] ->
  json_response url = Ok (PDict ((k, v) :: d)) ->
  exists w',
    get_tracks track_ids w
    = (Raise (mkExn TypeError "string indices must be integers, not 'str'"), w').
Proof.
  intros Hcred Hurl Hobject.
  destruct (get_tracks_with_credential track_ids w w0 Hcred) as [w' ->].
  exists w'. rewrite Hurl. cbn [map]. unfold lookup_value. rewrite Hobject.
  reflexivity.
Qed.

Lemma get_tracks_object_response_witness :
  @json_response Demo.refused Demo.lookup_5_3
  = Ok (PDict [("error", PStr "rate limit")])
  /\ exists w',
       @get_tracks Demo.refused [PInt 5; PInt 3] Demo.w0
       = (Raise (mkExn TypeError "string indices must be integers, not 'str'"), w').
Proof.
  split; [vm_compute; reflexivity|].
  exact (get_tracks_object_response Demo.refused [PInt 5; PInt 3] Demo.w0 Demo.w0
           Demo.lookup_5_3 "error" (PStr "rate limit") []
           eq_refl eq_refl eq_refl).
Defined.

(** An entry that is a record with neither a title nor an id stops the
    completion with a [KeyError]: the entry has been popped, the entries
    after it stay, the playlist is marked ready, and no request is made. *)
Theorem complete_entry_without_id (env : Env) (self : Playlist) (w : World)
    (d : list (str * pyval)) (rest : list entry) :
  ready self = false ->
  tracks self = Raw (PDict d) :: rest ->
  dict_get "title" d = None ->
  dict_get "id" d = None ->
  clean_attributes self w
  = (Raise (mkExn KeyError "'id'"), mkPlaylist true rest (p_client self), w).
Proof.
  intros Hready Htracks Htitle Hid. unfold clean_attributes.
  rewrite Hready, Htracks.
  cbn [pop_completed contains_str]. rewrite Htitle.
  cbn [resolve_incomplete entry_getitem getitem_str]. rewrite Hid.
  reflexivity.
Qed.

Lemma complete_entry_without_id_witness :
  @clean_attributes Demo.up Demo.nameless Demo.w0
  = (Raise (mkExn KeyError "'id'"),
     mkPlaylist true [Raw (Demo.stub 3)] (Some Api), Demo.w0).
Proof.
  exact (complete_entry_without_id Demo.up Demo.nameless Demo.w0
           [("kind", PStr "track")] [Raw (Demo.stub 3)]
           eq_refl eq_refl eq_refl eq_refl).
Defined.
